(** * iRacing telemetry overlay: the sampler and the chart transforms

    A shallow embedding of [telemetry_overlay.py]:
    - [IRacingTelemetry] (the seven rolling windows, [reset_data], [update]);
    - the part of [ApplicationWindow.update_plot] that decides what is
      drawn (the five visibility checkboxes, the presentation transforms
      and the limits of the x-axis).

    The windows are numpy [float64] arrays.  The embedding is written once
    over an interface of scalars ([Scalar]) and is run on two carriers:
    - [float], Rocq's primitive binary64 numbers: the arithmetic numpy
      performs, bit for bit;
    - [Qc], the canonical rationals: the same program with rounding,
      infinities and NaN idealised away.
    Facts about the order and the arithmetic of binary64 are derived from
    the specification of the primitive operations ([FloatAxioms] over
    [SpecFloat]).

    A raised [IndexError]/[ValueError] is the result [None]. *)

From Stdlib Require Import ZArith QArith Qcanon Floats String Lqa.
From stdpp Require Import base option list numbers.

#[local] Set Warnings "-inexact-float".
#[local] Open Scope Z_scope.

(** ** Scalars *)

(** The operations of the source on array elements.  [x > y] of the source
    is [ltb y x]; a Python [int] stored into a float array goes through
    [of_Z]; a decimal literal such as [83.33] is [lit 83.33]. *)
Class Scalar (A : Type) := {
  of_Z : Z → A;
  lit : Q → A;
  add : A → A → A;
  sub : A → A → A;
  mul : A → A → A;
  div : A → A → A;
  ltb : A → A → bool;
  leb : A → A → bool
}.

(** What the branches of the source rely on from the order: [x <= y]
    excludes [x > y], and [0 > 0] is false.  Both hold on binary64 too (NaN
    compares false both ways). *)
Class ScalarOrder (A : Type) `{Scalar A} : Prop := {
  leb_not_gt : ∀ x y : A, leb x y = true → ltb y x = false;
  zero_not_gt : ltb (of_Z 0 : A) (of_Z 0) = false
}.

(** *** binary64 through its specification

    Rocq's [Prim2SF] maps a binary64 number to its specification
    ([spec_float]: sign, mantissa, exponent); the definitions below read
    such a number as an integer multiple of [2^emin]. *)

(** Number of binary digits of a mantissa. *)
Definition digits (m : positive) : Z := Zpos (digits2_pos m).

(** The least exponent of binary64, [3 - emax - prec]. *)
Definition emin64 : Z := -1074.

(** The value of a finite number, in units of [2^emin64]. *)
Definition scaled (x : spec_float) : Z :=
  match x with
  | S754_finite s m e => cond_Zopp s (Zpos m * 2 ^ (e - emin64))
  | _ => 0
  end.

(** Neither infinite nor NaN. *)
Definition SF_finite (x : spec_float) : bool :=
  match x with S754_zero _ | S754_finite _ _ _ => true | _ => false end.

(** A zero of either sign, a positive number or [+inf]. *)
Definition SF_nonneg (x : spec_float) : bool :=
  match x with
  | S754_zero _ | S754_finite false _ _ | S754_infinity false => true
  | _ => false
  end.

(** After [k] one-bit shifts of the mantissa [M]: the quotient is kept, and
    the round and sticky bits are set only if a non-zero bit was lost. *)
Definition shr_inv (M : Z) (k : nat) (r : shr_record) : Prop :=
  shr_m r = M / 2 ^ Z.of_nat k ∧
  (orb (shr_r r) (shr_s r) = true → ¬ (2 ^ Z.of_nat k | M)).

(** *** binary64 *)

Module F64.

(** int -> float64, correctly rounded. *)
Definition of_Z (z : Z) : float := SF2Prim (binary_normalize prec emax z 0 false).

(** The float64 nearest to the decimal [n/d] (numerator and denominator
    below [2^53], as for every literal of the source). *)
Definition lit (q : Q) : float := PrimFloat.div (of_Z (Qnum q)) (of_Z (Zpos (Qden q))).

Definition is_finite (x : float) : bool := SF_finite (Prim2SF x).

Definition is_nan (x : float) : bool :=
  match Prim2SF x with S754_nan => true | _ => false end.

End F64.

#[export] Instance float_scalar : Scalar float := {|
  of_Z := F64.of_Z;
  lit := F64.lit;
  add := PrimFloat.add;
  sub := PrimFloat.sub;
  mul := PrimFloat.mul;
  div := PrimFloat.div;
  ltb := PrimFloat.ltb;
  leb := PrimFloat.leb
|}.

(** *** exact rationals *)

Module Exact.

Definition ltb (x y : Qc) : bool := Qnum x * Zpos (Qden y) <? Qnum y * Zpos (Qden x).
Definition leb (x y : Qc) : bool := Qnum x * Zpos (Qden y) <=? Qnum y * Zpos (Qden x).

End Exact.

#[export] Instance exact_scalar : Scalar Qc := {|
  of_Z := λ z, Q2Qc (inject_Z z);
  lit := Q2Qc;
  add := Qcplus;
  sub := Qcminus;
  mul := Qcmult;
  div := Qcdiv;
  ltb := Exact.ltb;
  leb := Exact.leb
|}.

(** ** numpy arrays as lists *)

Section Arrays.
Context {A : Type}.

(** [np.roll(a, -1)]: every element moves one place to the left and the
    first one wraps around to the end. *)
Definition roll_left (a : list A) : list A := drop 1 a ++ take 1 a.

(** [a[-k]] for [k >= 1]; [IndexError] when [k > len(a)]. *)
Definition get_back (k : nat) (a : list A) : option A :=
  if decide (1 ≤ k ≤ length a)%nat then a !! (length a - k)%nat else None.

(** [a[-k] = v] for [k >= 1]; [IndexError] when [k > len(a)]. *)
Definition set_back (k : nat) (v : A) (a : list A) : option (list A) :=
  if decide (1 ≤ k ≤ length a)%nat then Some (<[(length a - k)%nat := v]> a) else None.

End Arrays.

(** ** The telemetry source *)

(** What one tick reads from [irsdk]: the connection flag and the six keyed
    values.  [Gear] is an integer (-1 reverse, 0 neutral). *)
Record IRSDK (A : Type) := {
  is_connected : bool;
  Throttle : A;
  Brake : A;
  Steer : A;
  Speed : A;
  Gear : Z;
  SessionTime : A
}.
Arguments is_connected {A}.
Arguments Throttle {A}.
Arguments Brake {A}.
Arguments Steer {A}.
Arguments Speed {A}.
Arguments Gear {A}.
Arguments SessionTime {A}.

(** ** class IRacingTelemetry *)

Record IRacingTelemetry (A : Type) := {
  history_length : nat;
  throttle : list A;
  brake : list A;
  steer : list A;
  speed : list A;
  gear : list A;
  distance : list A;
  time : list A
}.
Arguments history_length {A}.
Arguments throttle {A}.
Arguments brake {A}.
Arguments steer {A}.
Arguments speed {A}.
Arguments gear {A}.
Arguments distance {A}.
Arguments time {A}.

Section Sampler.
Context {A : Type} `{Scalar A}.

(** [np.zeros(n)] *)
Definition zeros (n : nat) : list A := replicate n (of_Z 0).

Definition reset_data (self : IRacingTelemetry A) : IRacingTelemetry A :=
  {| history_length := history_length self;
     throttle := zeros (history_length self);
     brake := zeros (history_length self);
     steer := zeros (history_length self);
     speed := zeros (history_length self);
     gear := zeros (history_length self);
     distance := zeros (history_length self);
     time := zeros (history_length self) |}.

(** [__init__]: [history_length = 200], then [reset_data()]. *)
Definition init : IRacingTelemetry A :=
  reset_data {| history_length := 200; throttle := []; brake := []; steer := [];
                speed := []; gear := []; distance := []; time := [] |}.

(** Lines 47-53, on the rolled windows: the distance of the new sample. *)
Definition update_distance (speed' distance' time' : list A) : option (list A) :=
  if decide (1 < length time')%nat then
    t1 ← get_back 1 time';
    t2 ← get_back 2 time';
    let time_delta := sub t1 t2 in
    v ← get_back 1 speed';
    if ltb (of_Z 0) v then
      d ← get_back 2 distance';
      set_back 1 (add d (mul v time_delta)) distance'
    else
      d ← get_back 2 distance';
      set_back 1 d distance'
  else Some distance'.

Definition update (ir : IRSDK A) (self : IRacingTelemetry A) : option (IRacingTelemetry A) :=
  if negb (is_connected ir) then Some (reset_data self)
  else
    throttle' ← set_back 1 (Throttle ir) (roll_left (throttle self));
    brake' ← set_back 1 (Brake ir) (roll_left (brake self));
    steer' ← set_back 1 (Steer ir) (roll_left (steer self));
    speed' ← set_back 1 (Speed ir) (roll_left (speed self));
    gear' ← set_back 1 (of_Z (Gear ir)) (roll_left (gear self));
    time' ← set_back 1 (SessionTime ir) (roll_left (time self));
    distance' ← update_distance speed' (roll_left (distance self)) time';
    Some {| history_length := history_length self;
            throttle := throttle'; brake := brake'; steer := steer';
            speed := speed'; gear := gear'; distance := distance'; time := time' |}.

(** The sampler over a sequence of ticks, oldest reading first. *)
Fixpoint ticks (irs : list (IRSDK A)) (self : IRacingTelemetry A) : option (IRacingTelemetry A) :=
  match irs with
  | [] => Some self
  | ir :: irs' => self' ← update ir self; ticks irs' self'
  end.

End Sampler.

(** ** class ApplicationWindow: what [update_plot] draws *)

(** One call of [ax.plot(x, y, color=c)]. *)
Record Line (A : Type) := {
  xdata : list A;
  ydata : list A;
  color : string
}.
Arguments xdata {A}.
Arguments ydata {A}.
Arguments color {A}.

(** The axes after a redraw: the plotted lines in drawing order and the
    limits given to [set_xlim]. *)
Record Axes (A : Type) := {
  lines : list (Line A);
  xlim : A * A
}.
Arguments lines {A}.
Arguments xlim {A}.

(** The window's state that a tick reads or writes: the sampler and the five
    visibility checkboxes ([isChecked()]). *)
Record ApplicationWindow (A : Type) := {
  telemetry : IRacingTelemetry A;
  throttle_checkbox : bool;
  brake_checkbox : bool;
  steer_checkbox : bool;
  speed_checkbox : bool;
  gear_checkbox : bool
}.
Arguments telemetry {A}.
Arguments throttle_checkbox {A}.
Arguments brake_checkbox {A}.
Arguments steer_checkbox {A}.
Arguments speed_checkbox {A}.
Arguments gear_checkbox {A}.

Section Renderer.
Context {A : Type} `{Scalar A}.

(** [ApplicationWindow.__init__]: every checkbox checked, a fresh sampler. *)
Definition window_init : ApplicationWindow A :=
  {| telemetry := init; throttle_checkbox := true; brake_checkbox := true;
     steer_checkbox := true; speed_checkbox := true; gear_checkbox := true |}.

(** [(self.telemetry.steer + 1) * 0.5], element by element. *)
Definition steer_normalized (steer : list A) : list A :=
  (λ v, mul (add v (of_Z 1)) (lit 0.5)) <$> steer.

(** [self.telemetry.speed / 83.33] *)
Definition speed_normalized (speed : list A) : list A :=
  (λ v, div v (lit 83.33)) <$> speed.

(** [self.telemetry.gear / 6.0] *)
Definition gear_normalized (gear : list A) : list A :=
  (λ v, div v (lit 6.0)) <$> gear.

(** [ax.plot(x, y, color=c)] appends a line; matplotlib raises [ValueError]
    when [x] and [y] differ in length. *)
Definition plot (x y : list A) (c : string) (drawn : list (Line A)) : option (list (Line A)) :=
  if decide (length x = length y) then Some (drawn ++ [{| xdata := x; ydata := y; color := c |}])
  else None.

(** [if checkbox.isChecked(): ax.plot(...)] *)
Definition plot_if (checked : bool) (x y : list A) (c : string) (drawn : list (Line A)) :
  option (list (Line A)) :=
  if checked then plot x y c drawn else Some drawn.

(** Lines 193-197: the limits of the x-axis. *)
Definition x_limits (distance : list A) : option (A * A) :=
  d ← get_back 1 distance;
  if ltb (of_Z 150) d then Some (sub d (of_Z 150), add d (of_Z 150))
  else Some (of_Z 0, of_Z 300).

(** Lines 175-197 on the sampler's state: [ax.clear()], the five conditional
    plots, the limits. *)
Definition draw (self : ApplicationWindow A) (t : IRacingTelemetry A) : option (Axes A) :=
  l1 ← plot_if (throttle_checkbox self) (distance t) (throttle t) "lime" [];
  l2 ← plot_if (brake_checkbox self) (distance t) (brake t) "red" l1;
  l3 ← plot_if (steer_checkbox self) (distance t) (steer_normalized (steer t)) "cyan" l2;
  l4 ← plot_if (speed_checkbox self) (distance t) (speed_normalized (speed t)) "yellow" l3;
  l5 ← plot_if (gear_checkbox self) (distance t) (gear_normalized (gear t)) "magenta" l4;
  lim ← x_limits (distance t);
  Some {| lines := l5; xlim := lim |}.

(** One tick: [self.telemetry.update()], then the redraw. *)
Definition update_plot (ir : IRSDK A) (self : ApplicationWindow A) :
  option (ApplicationWindow A * Axes A) :=
  t ← update ir (telemetry self);
  ax ← draw self t;
  Some ({| telemetry := t;
           throttle_checkbox := throttle_checkbox self;
           brake_checkbox := brake_checkbox self;
           steer_checkbox := steer_checkbox self;
           speed_checkbox := speed_checkbox self;
           gear_checkbox := gear_checkbox self |}, ax).

End Renderer.


(** ** Well-formed sampler states *)

Section Invariant.
Context {A : Type}.

(** The seven windows have the same length [n]. *)
Definition aligned (n : nat) (self : IRacingTelemetry A) : Prop :=
  length (throttle self) = n ∧ length (brake self) = n ∧ length (steer self) = n ∧
  length (speed self) = n ∧ length (gear self) = n ∧ length (distance self) = n ∧
  length (time self) = n.

(** The class invariant: [history_length] is 200 and so is every window. *)
Definition wf (self : IRacingTelemetry A) : Prop :=
  history_length self = 200%nat ∧ aligned 200 self.

End Invariant.

(** ** The distance recurrence and monotonicity *)

Section WindowProperties.
Context {A : Type} `{Scalar A}.

(** Every pair of neighbouring samples of the windows obeys lines 49-53:
    the later distance is the earlier one, advanced by [speed * time_delta]
    when the later speed is positive. *)
Definition recurrence (self : IRacingTelemetry A) : Prop :=
  ∀ (i : nat) (v t0 t1 d0 d1 : A),
    speed self !! S i = Some v →
    time self !! i = Some t0 → time self !! S i = Some t1 →
    distance self !! i = Some d0 → distance self !! S i = Some d1 →
    d1 = if ltb (of_Z 0) v then add d0 (mul v (sub t1 t0)) else d0.

(** "Distance is non-decreasing while moving", at the pair of samples
    [i], [i+1] of the windows. *)
Definition non_decreasing_at (self : IRacingTelemetry A) (i : nat) : Prop :=
  ∀ (v d0 d1 : A),
    speed self !! S i = Some v → ltb (of_Z 0) v = true →
    distance self !! i = Some d0 → distance self !! S i = Some d1 →
    leb d0 d1 = true.

End WindowProperties.

(** ** Scenarios *)

Section Scenarios.
Context {A : Type} `{Scalar A}.

(** A connected reading with speed [v] at session time [t]. *)
Definition reading (v t : A) : IRSDK A :=
  {| is_connected := true; Throttle := lit 0.5; Brake := of_Z 0; Steer := lit 0.25;
     Speed := v; Gear := 3; SessionTime := t |}.

(** The source while the simulator is not running. *)
Definition offline : IRSDK A :=
  {| is_connected := false; Throttle := of_Z 0; Brake := of_Z 0; Steer := of_Z 0;
     Speed := of_Z 0; Gear := 0; SessionTime := of_Z 0 |}.

(** The sampler after the given ticks from start-up. *)
Definition after (irs : list (IRSDK A)) : IRacingTelemetry A :=
  default init (ticks irs init).

(** Standing at session time 100 s, then 10 m/s for half a second. *)
Definition driving : list (IRSDK A) :=
  [reading (of_Z 0) (of_Z 100); reading (of_Z 10) (lit 100.5)].

(** The same, then the session restarts: session time is back at 0.5 s
    while the car still moves at 10 m/s. *)
Definition session_restart : list (IRSDK A) :=
  driving ++ [reading (of_Z 10) (lit 0.5)].

End Scenarios.

(** ** Runs of the sampler and of the redraw *)

Section Runs.
Context {A : Type} `{Scalar A}.




End Runs.

(** The readings are finite numbers and session time never runs backwards:
    every connected reading has a finite speed and a finite session time, at
    or after the time stored last ([prev]); a disconnection stores 0 again. *)
Fixpoint times_advance (prev : float) (irs : list (IRSDK float)) : Prop :=
  match irs with
  | [] => True
  | ir :: irs' =>
      if is_connected ir
      then F64.is_finite (Speed ir) = true ∧ F64.is_finite (SessionTime ir) = true ∧
           PrimFloat.leb prev (SessionTime ir) = true ∧
           times_advance (SessionTime ir) irs'
      else times_advance (of_Z 0) irs'
  end.

(** ** class ApplicationWindow: dragging and resizing by mouse

    The window is frameless ([Qt.FramelessWindowHint]), so its position
    ([x()], [y()], [frameGeometry().topLeft()]) and the origin of its
    geometry coincide.  Qt keeps a size within the widget's minimum and
    maximum size: [resize] and [setGeometry] bound the size they are given.
    Coordinates are pixels, far from the limits of a C [int]. *)

Record QPoint := {
  qx : Z;
  qy : Z
}.

(** [p - q] on points *)
Definition qsub (p q : QPoint) : QPoint := {| qx := qx p - qx q; qy := qy p - qy q |}.

Inductive MouseButton := LeftButton | RightButton | MiddleButton.

(** The values of [resize_edge]: ["left"], ["right"], ["top"], ["bottom"]. *)
Inductive ResizeEdge := EdgeLeft | EdgeRight | EdgeTop | EdgeBottom.

Inductive CursorShape := ArrowCursor | SizeHorCursor | SizeVerCursor.

(** [event.button()], [event.pos()] (relative to the window) and
    [event.globalPos()]. *)
Record QMouseEvent := {
  ev_button : MouseButton;
  ev_pos : QPoint;
  ev_globalPos : QPoint
}.

(** The part of the window's state the mouse handlers read and write. *)
Record Chrome := {
  win_x : Z;
  win_y : Z;
  win_width : Z;
  win_height : Z;
  minimumWidth : Z;
  minimumHeight : Z;
  maximumWidth : Z;
  maximumHeight : Z;
  dragging : bool;
  drag_position : QPoint;
  resizing : bool;
  resize_edge : option ResizeEdge;
  resize_margin : Z;
  cursor : CursorShape
}.

(** [__init__]: geometry (100, 100, 450, 150), no gesture, margin 10.  The
    size limits are Qt's (the layout may set a minimum). *)
Definition chrome_init (minw minh maxw maxh : Z) : Chrome :=
  {| win_x := 100; win_y := 100; win_width := 450; win_height := 150;
     minimumWidth := minw; minimumHeight := minh;
     maximumWidth := maxw; maximumHeight := maxh;
     dragging := false; drag_position := {| qx := 0; qy := 0 |};
     resizing := false; resize_edge := None; resize_margin := 10;
     cursor := ArrowCursor |}.

(** Qt's adjustment of a requested size: [qMax(qMin(v, max), min)]. *)
Definition bound_size (lo hi v : Z) : Z := Z.max (Z.min v hi) lo.

(** [self.setGeometry(x, y, w, h)] *)
Definition setGeometry (x y w h : Z) (self : Chrome) : Chrome :=
  {| win_x := x; win_y := y;
     win_width := bound_size (minimumWidth self) (maximumWidth self) w;
     win_height := bound_size (minimumHeight self) (maximumHeight self) h;
     minimumWidth := minimumWidth self; minimumHeight := minimumHeight self;
     maximumWidth := maximumWidth self; maximumHeight := maximumHeight self;
     dragging := dragging self; drag_position := drag_position self;
     resizing := resizing self; resize_edge := resize_edge self;
     resize_margin := resize_margin self; cursor := cursor self |}.

(** [self.resize(w, h)] *)
Definition resize (w h : Z) (self : Chrome) : Chrome :=
  setGeometry (win_x self) (win_y self) w h self.

(** [self.move(p)]: the size stays as it is. *)
Definition move (p : QPoint) (self : Chrome) : Chrome :=
  {| win_x := qx p; win_y := qy p;
     win_width := win_width self; win_height := win_height self;
     minimumWidth := minimumWidth self; minimumHeight := minimumHeight self;
     maximumWidth := maximumWidth self; maximumHeight := maximumHeight self;
     dragging := dragging self; drag_position := drag_position self;
     resizing := resizing self; resize_edge := resize_edge self;
     resize_margin := resize_margin self; cursor := cursor self |}.

(** [self.setCursor(c)] *)
Definition setCursor (c : CursorShape) (self : Chrome) : Chrome :=
  {| win_x := win_x self; win_y := win_y self;
     win_width := win_width self; win_height := win_height self;
     minimumWidth := minimumWidth self; minimumHeight := minimumHeight self;
     maximumWidth := maximumWidth self; maximumHeight := maximumHeight self;
     dragging := dragging self; drag_position := drag_position self;
     resizing := resizing self; resize_edge := resize_edge self;
     resize_margin := resize_margin self; cursor := c |}.

(** Assignment to the four gesture attributes. *)
Definition set_gesture (d : bool) (dp : QPoint) (r : bool) (e : option ResizeEdge)
    (self : Chrome) : Chrome :=
  {| win_x := win_x self; win_y := win_y self;
     win_width := win_width self; win_height := win_height self;
     minimumWidth := minimumWidth self; minimumHeight := minimumHeight self;
     maximumWidth := maximumWidth self; maximumHeight := maximumHeight self;
     dragging := d; drag_position := dp; resizing := r; resize_edge := e;
     resize_margin := resize_margin self; cursor := cursor self |}.

(** [get_resize_edge(pos)]; [self.rect()] is [(0, 0, width, height)]. *)
Definition get_resize_edge (self : Chrome) (pos : QPoint) : option ResizeEdge :=
  if qx pos <=? resize_margin self then Some EdgeLeft
  else if win_width self - resize_margin self <=? qx pos then Some EdgeRight
  else if qy pos <=? resize_margin self then Some EdgeTop
  else if win_height self - resize_margin self <=? qy pos then Some EdgeBottom
  else None.

Definition resize_window (self : Chrome) (event : QMouseEvent) : Chrome :=
  let global_pos := ev_globalPos event in
  match resize_edge self with
  | Some EdgeLeft =>
      let new_width := win_width self - (qx global_pos - win_x self) in
      if minimumWidth self <? new_width
      then setGeometry (qx global_pos) (win_y self) new_width (win_height self) self
      else self
  | Some EdgeRight =>
      let new_width := qx global_pos - win_x self in
      if minimumWidth self <? new_width then resize new_width (win_height self) self
      else self
  | Some EdgeTop =>
      let new_height := win_height self - (qy global_pos - win_y self) in
      if minimumHeight self <? new_height
      then setGeometry (win_x self) (qy global_pos) (win_width self) new_height self
      else self
  | Some EdgeBottom =>
      let new_height := qy global_pos - win_y self in
      if minimumHeight self <? new_height then resize (win_width self) new_height self
      else self
  | None => self
  end.

Definition mousePressEvent (self : Chrome) (event : QMouseEvent) : Chrome :=
  match ev_button event with
  | LeftButton =>
      let edge := get_resize_edge self (ev_pos event) in
      match edge with
      | Some _ => set_gesture (dragging self) (drag_position self) true edge self
      | None =>
          set_gesture true
            (qsub (ev_globalPos event) {| qx := win_x self; qy := win_y self |})
            (resizing self) edge self
      end
  | _ => self
  end.

Definition mouseMoveEvent (self : Chrome) (event : QMouseEvent) : Chrome :=
  if dragging self then move (qsub (ev_globalPos event) (drag_position self)) self
  else if resizing self then resize_window self event
  else
    match get_resize_edge self (ev_pos event) with
    | Some (EdgeLeft | EdgeRight) => setCursor SizeHorCursor self
    | Some (EdgeTop | EdgeBottom) => setCursor SizeVerCursor self
    | None => setCursor ArrowCursor self
    end.

Definition mouseReleaseEvent (self : Chrome) (event : QMouseEvent) : Chrome :=
  match ev_button event with
  | LeftButton =>
      setCursor ArrowCursor (set_gesture false (drag_position self) false None self)
  | _ => self
  end.

(** The mouse events Qt delivers to the window. *)
Inductive MouseAction :=
  | Press (event : QMouseEvent)
  | Move (event : QMouseEvent)
  | Release (event : QMouseEvent).

Definition handle (self : Chrome) (a : MouseAction) : Chrome :=
  match a with
  | Press e => mousePressEvent self e
  | Move e => mouseMoveEvent self e
  | Release e => mouseReleaseEvent self e
  end.

(** The window after a sequence of mouse events, oldest first. *)
Definition handle_all (self : Chrome) (l : list MouseAction) : Chrome :=
  foldl handle self l.

(** Qt keeps a widget's size within its minimum and maximum size. *)
Definition within_limits (self : Chrome) : Prop :=
  minimumWidth self ≤ win_width self ≤ maximumWidth self ∧
  minimumHeight self ≤ win_height self ≤ maximumHeight self.

(** A pointer position strictly inside the margin on all four sides. *)
Definition interior (self : Chrome) (pos : QPoint) : Prop :=
  resize_margin self < qx pos < win_width self - resize_margin self ∧
  resize_margin self < qy pos < win_height self - resize_margin self.

(** * Properties *)

(** ** Laws of the two carriers *)

Lemma SFcompare_swap (x y : spec_float) (c : comparison) :
  SFcompare x y = Some c → SFcompare y x = Some (CompOpp c).
Proof.
  destruct x as [sx|sx| |sx mx ex], y as [sy|sy| |sy my ey];
    try destruct sx; try destruct sy; cbn [SFcompare];
    intros H; try discriminate H; injection H as <-; try reflexivity;
    f_equal; rewrite (Z.compare_antisym ex ey);
    change (Pos.compare_cont Eq my mx) with (my ?= mx)%positive;
    rewrite (Pos.compare_antisym mx my);
    change (Pos.compare_cont Eq mx my) with (mx ?= my)%positive;
    destruct (ex ?= ey); destruct (mx ?= my)%positive; reflexivity.
Qed.

Lemma float_leb_not_gt (x y : float) :
  PrimFloat.leb x y = true → PrimFloat.ltb y x = false.
Proof.
  rewrite leb_spec, ltb_spec. unfold SFleb, SFltb.
  destruct (SFcompare (Prim2SF x) (Prim2SF y)) as [c|] eqn:E; [|discriminate].
  rewrite (SFcompare_swap _ _ _ E). destruct c; simpl; congruence.
Qed.

#[export] Instance float_order : ScalarOrder float.
Proof. split; [exact float_leb_not_gt | reflexivity]. Qed.

Lemma exact_ltb_lt (x y : Qc) : ltb x y = true ↔ (x < y)%Qc.
Proof. unfold ltb; simpl. unfold Exact.ltb, Qclt, Qlt. apply Z.ltb_lt. Qed.

Lemma exact_leb_le (x y : Qc) : leb x y = true ↔ (x ≤ y)%Qc.
Proof. unfold leb; simpl. unfold Exact.leb, Qcle, Qle. apply Z.leb_le. Qed.

#[export] Instance exact_order : ScalarOrder Qc.
Proof.
  split; [|reflexivity].
  intros x y Hle. simpl in *. unfold Exact.leb, Exact.ltb in *.
  apply Z.ltb_ge. apply Z.leb_le. exact Hle.
Qed.

(** ** Arrays *)

Section ArrayFacts.
Context {A : Type}.
Implicit Types (a : list A) (v : A).

Lemma get_back_1_last a : get_back 1 a = list.last a.
Proof.
  unfold get_back. case_decide as Hn.
  - rewrite last_lookup. f_equal. lia.
  - destruct a; [reflexivity | simpl in Hn; lia].
Qed.

Lemma get_back_snoc a v : get_back 1 (a ++ [v]) = Some v.
Proof. rewrite get_back_1_last. apply last_snoc. Qed.

Lemma get_back_2_snoc a v : get_back 2 (a ++ [v]) = list.last a.
Proof.
  unfold get_back. rewrite length_app. simpl. case_decide as Hn.
  - rewrite lookup_app_l by lia. rewrite last_lookup. f_equal. lia.
  - destruct a; [reflexivity | simpl in Hn; lia].
Qed.

Lemma length_roll_left a : length (roll_left a) = length a.
Proof. unfold roll_left. rewrite length_app, length_drop, length_take. lia. Qed.

(** Rolling, then writing the last cell: the first element is gone and the
    new one is at the end. *)
Lemma set_back_roll_left a v :
  a ≠ [] → set_back 1 v (roll_left a) = Some (drop 1 a ++ [v]).
Proof.
  intros Ha. destruct a as [|x a]; [done|].
  unfold set_back, roll_left. cbn [drop take]. rewrite drop_0, length_app. simpl.
  case_decide as Hn; [|lia]. f_equal.
  replace (length a + 1 - 1)%nat with (length a + 0)%nat by lia.
  rewrite insert_app_r. reflexivity.
Qed.

Lemma set_back_roll_left_nil v : set_back 1 v (roll_left []) = (None : option (list A)).
Proof. reflexivity. Qed.

Lemma last_roll_left a : (2 ≤ length a)%nat → get_back 2 (roll_left a) = list.last a.
Proof.
  intros Hn. destruct a as [|x [|y a]]; simpl in Hn; try lia.
  unfold roll_left. cbn [drop take].
  change (drop 0 (y :: a)) with (y :: a). rewrite get_back_2_snoc.
  reflexivity.
Qed.

Lemma last_drop_1 a : (2 ≤ length a)%nat → list.last (drop 1 a) = list.last a.
Proof. intros Hn. destruct a as [|x [|y a]]; simpl in Hn; try lia. reflexivity. Qed.

Lemma length_drop_snoc a v : a ≠ [] → length (drop 1 a ++ [v]) = length a.
Proof. intros Ha. destruct a; [done|]. cbn [drop]. rewrite drop_0, !length_app. simpl. lia. Qed.

End ArrayFacts.

Lemma get_back_1_is_Some {A : Type} (a : list A) : a ≠ [] → is_Some (get_back 1 a).
Proof.
  intros Ha. unfold get_back. case_decide as Hn.
  - apply lookup_lt_is_Some. lia.
  - destruct a; [done | simpl in Hn; lia].
Qed.

Lemma length_pos_nonempty {A : Type} (a : list A) (n : nat) :
  length a = n → (1 ≤ n)%nat → a ≠ [].
Proof. intros Hl Hn ->. simpl in Hl. lia. Qed.

(** ** The sampler *)

Section SamplerFacts.
Context {A : Type} `{Scalar A}.
Implicit Types (self : IRacingTelemetry A) (ir : IRSDK A).

Lemma length_zeros n : length (zeros (A:=A) n) = n.
Proof. apply length_replicate. Qed.

Lemma reset_data_aligned self : aligned (history_length self) (reset_data self).
Proof. unfold aligned, reset_data; simpl. rewrite !length_zeros. tauto. Qed.

Lemma init_wf : wf (init (A:=A)).
Proof. split; [reflexivity | unfold init; apply reset_data_aligned]. Qed.

(** The distance step on the rolled windows, when there is a previous
    sample: the new distance is computed from the last stored time and
    distance. *)
Lemma update_distance_snoc (speed0 dist time0 : list A) (v t tp dp : A) :
  (2 ≤ length time0)%nat → (2 ≤ length dist)%nat →
  get_back 1 time0 = Some tp → get_back 1 dist = Some dp →
  update_distance (speed0 ++ [v]) (roll_left dist) (drop 1 time0 ++ [t]) =
    Some (drop 1 dist ++ [if ltb (of_Z 0) v then add dp (mul v (sub t tp)) else dp]).
Proof.
  intros Ht Hd Htp Hdp. unfold update_distance.
  rewrite length_app, length_drop. simpl. case_decide as Hn; [|lia].
  rewrite get_back_snoc, get_back_2_snoc, (last_drop_1 _ Ht), <- get_back_1_last, Htp.
  simpl. rewrite get_back_snoc. simpl.
  rewrite (last_roll_left _ Hd), <- get_back_1_last, Hdp.
  assert (dist ≠ []) as Hne by (intros ->; simpl in Hd; lia).
  destruct (ltb (of_Z 0) v); simpl; apply (set_back_roll_left _ _ Hne).
Qed.

(** A connected tick on windows of a common length of at least two. *)
Lemma update_connected ir self (n : nat) (tp dp : A) :
  is_connected ir = true → aligned n self → (2 ≤ n)%nat →
  get_back 1 (time self) = Some tp → get_back 1 (distance self) = Some dp →
  update ir self = Some
    {| history_length := history_length self;
       throttle := drop 1 (throttle self) ++ [Throttle ir];
       brake := drop 1 (brake self) ++ [Brake ir];
       steer := drop 1 (steer self) ++ [Steer ir];
       speed := drop 1 (speed self) ++ [Speed ir];
       gear := drop 1 (gear self) ++ [of_Z (Gear ir)];
       distance := drop 1 (distance self) ++
         [if ltb (of_Z 0) (Speed ir)
          then add dp (mul (Speed ir) (sub (SessionTime ir) tp)) else dp];
       time := drop 1 (time self) ++ [SessionTime ir] |}.
Proof.
  intros Hc (Hth & Hbr & Hst & Hsp & Hge & Hdi & Hti) Hn Htp Hdp.
  unfold update. rewrite Hc. simpl.
  rewrite !set_back_roll_left by (eapply length_pos_nonempty; [eassumption | lia]).
  simpl. rewrite (update_distance_snoc _ _ _ _ _ tp dp) by (done || lia).
  reflexivity.
Qed.

(** Windows of a common positive length have a last time and distance. *)
Lemma aligned_last (n : nat) self :
  aligned n self → (1 ≤ n)%nat →
  ∃ tp dp, get_back 1 (time self) = Some tp ∧ get_back 1 (distance self) = Some dp.
Proof.
  intros (_ & _ & _ & _ & _ & Hdi & Hti) Hn.
  destruct (get_back_1_is_Some (time self)) as [tp Htp];
    [eapply length_pos_nonempty; eauto|].
  destruct (get_back_1_is_Some (distance self)) as [dp Hdp];
    [eapply length_pos_nonempty; eauto|].
  eauto.
Qed.

Lemma update_wf ir self : wf self → ∃ self', update ir self = Some self' ∧ wf self'.
Proof.
  intros [Hh Hal]. destruct (is_connected ir) eqn:Hc.
  - destruct (aligned_last 200 self Hal) as (tp & dp & Htp & Hdp); [lia|].
    eexists. split; [apply (update_connected ir self 200 tp dp); auto; lia|].
    destruct Hal as (Hth & Hbr & Hst & Hsp & Hge & Hdi & Hti).
    split; [exact Hh|]. unfold aligned; simpl.
    rewrite !length_drop_snoc by (eapply length_pos_nonempty; [eassumption | lia]).
    tauto.
  - exists (reset_data self). unfold update. rewrite Hc. simpl. split; [reflexivity|].
    split; [exact Hh|]. rewrite <- Hh at 1. apply reset_data_aligned.
Qed.

Lemma ticks_wf (irs : list (IRSDK A)) self :
  wf self → ∃ self', ticks irs self = Some self' ∧ wf self'.
Proof.
  revert self. induction irs as [|ir irs IH]; intros self Hwf; simpl.
  - eauto.
  - destruct (update_wf ir self Hwf) as (s1 & -> & Hwf1). simpl. auto.
Qed.

End SamplerFacts.

(** ** The literals and the scenarios of the specification on binary64 *)

(** [lit] and [of_Z] give the float64 values Python gives the literals of
    the source. *)
Lemma float_literals :
  (lit 0.5 : float) = 0.5%float ∧ (lit 83.33 : float) = 83.33%float ∧
  (lit 6.0 : float) = 6%float ∧ (of_Z 0 : float) = 0%float ∧
  (of_Z 1 : float) = 1%float ∧ (of_Z 150 : float) = 150%float ∧
  (of_Z 300 : float) = 300%float ∧ (of_Z (-1) : float) = (-1)%float.
Proof. repeat split; vm_compute; reflexivity. Qed.

(** Scenario A: disconnected, then two readings at rest, 0.1 s apart: the
    last two distances are 0. *)
Lemma scenario_A :
  (s ← ticks [offline; reading 0%float 0%float; reading 0%float 0.1%float] init;
   d1 ← get_back 2 (distance s); d2 ← get_back 1 (distance s); Some (d1, d2))
  = Some (0%float, 0%float).
Proof. vm_compute; reflexivity. Qed.

(** Scenario B: 10 m/s at 0.0 s and at 0.1 s: the last distance is the one
    before plus 1.0. *)
Lemma scenario_B :
  (s ← ticks [reading 10%float 0%float; reading 10%float 0.1%float] init;
   d1 ← get_back 2 (distance s); d2 ← get_back 1 (distance s); Some (d1, d2))
  = Some (0%float, (0 + 1)%float).
Proof. vm_compute; reflexivity. Qed.

(** ** Reset on disconnection, FIFO on connection, the length invariant *)

Section SamplerClaims.
Context {A : Type} `{Scalar A}.
Implicit Types (self : IRacingTelemetry A) (ir : IRSDK A).

(** C1.  When the source reports disconnected, [update] succeeds and each of
    the seven windows is afterwards a sequence of 200 zeros, whatever the
    windows held before (of any lengths and contents). *)
Theorem update_disconnected_resets ir self :
  is_connected ir = false → history_length self = 200%nat →
  ∃ self', update ir self = Some self' ∧
    throttle self' = replicate 200 (of_Z 0) ∧
    brake self' = replicate 200 (of_Z 0) ∧
    steer self' = replicate 200 (of_Z 0) ∧
    speed self' = replicate 200 (of_Z 0) ∧
    gear self' = replicate 200 (of_Z 0) ∧
    distance self' = replicate 200 (of_Z 0) ∧
    time self' = replicate 200 (of_Z 0).
Proof.
  intros Hc Hh. exists (reset_data self). unfold update. rewrite Hc.
  unfold reset_data, zeros; simpl. rewrite Hh. repeat split; reflexivity.
Qed.

(** C2.  On a connected tick, from any state whose seven windows share a
    length [n >= 1] (200 in every state the program reaches), [update]
    succeeds and each window becomes the old one without its element at
    index 0 and with one new element at the end.  For the six sampled
    channels the new element is the value just read.  For [distance] it is
    the value the code computes from [tp] and [dp], the time and the
    distance stored last before the tick: with two or more samples in the
    window, [dp + Speed * (SessionTime - tp)] if the speed read is greater
    than 0 and [dp] otherwise; with a single sample the code writes no
    distance ([len(self.time) > 1] fails) and the rolled window keeps [dp].
    The common length is unchanged. *)
Theorem update_connected_fifo ir self (n : nat) :
  is_connected ir = true → aligned n self → (1 ≤ n)%nat →
  ∃ tp dp self',
    get_back 1 (time self) = Some tp ∧ get_back 1 (distance self) = Some dp ∧
    update ir self = Some self' ∧
    throttle self' = drop 1 (throttle self) ++ [Throttle ir] ∧
    brake self' = drop 1 (brake self) ++ [Brake ir] ∧
    steer self' = drop 1 (steer self) ++ [Steer ir] ∧
    speed self' = drop 1 (speed self) ++ [Speed ir] ∧
    gear self' = drop 1 (gear self) ++ [of_Z (Gear ir)] ∧
    distance self' = drop 1 (distance self) ++
      [if decide (2 ≤ n)%nat
       then if ltb (of_Z 0) (Speed ir)
            then add dp (mul (Speed ir) (sub (SessionTime ir) tp)) else dp
       else dp] ∧
    time self' = drop 1 (time self) ++ [SessionTime ir] ∧
    aligned n self'.
Proof.
  intros Hc Hal Hn.
  assert (∀ a : list A, length a = n → a ≠ []) as Hne
    by (intros a Ha; eapply length_pos_nonempty; eauto).
  destruct (aligned_last n self Hal Hn) as (tp & dp & Htp & Hdp).
  exists tp, dp.
  destruct (decide (2 ≤ n)%nat) as [H2|H1].
  - eexists. split; [exact Htp|]. split; [exact Hdp|].
    split; [apply (update_connected ir self n tp dp); auto|].
    simpl. repeat (split; [reflexivity|]).
    destruct Hal as (Hth & Hbr & Hst & Hsp & Hge & Hdi & Hti).
    unfold aligned; simpl. rewrite !length_drop_snoc by auto. tauto.
  - assert (n = 1%nat) as -> by lia.
    destruct Hal as (Hth & Hbr & Hst & Hsp & Hge & Hdi & Hti).
    destruct (distance self) as [|d0 [|? ?]] eqn:Hd; try discriminate Hdi.
    assert (dp = d0) as -> by (vm_compute in Hdp; congruence).
    exists {| history_length := history_length self;
              throttle := drop 1 (throttle self) ++ [Throttle ir];
              brake := drop 1 (brake self) ++ [Brake ir];
              steer := drop 1 (steer self) ++ [Steer ir];
              speed := drop 1 (speed self) ++ [Speed ir];
              gear := drop 1 (gear self) ++ [of_Z (Gear ir)];
              distance := [d0];
              time := drop 1 (time self) ++ [SessionTime ir] |}.
    split; [exact Htp|]. split; [exact Hdp|]. split.
    + unfold update. rewrite Hc, Hd. simpl. rewrite !set_back_roll_left by auto.
      simpl. unfold update_distance. rewrite length_drop_snoc, Hti by auto.
      case_decide; [lia|]. reflexivity.
    + simpl. repeat (split; [reflexivity|]).
      unfold aligned; simpl. rewrite !length_drop_snoc by auto. tauto.
Qed.

(** C3.  After initialisation and after any sequence of calls of [update],
    connected or not, every call succeeds and each of the seven windows has
    length 200. *)
Theorem windows_length_invariant (irs : list (IRSDK A)) :
  ∃ self, ticks irs init = Some self ∧
    length (throttle self) = 200%nat ∧ length (brake self) = 200%nat ∧
    length (steer self) = 200%nat ∧ length (speed self) = 200%nat ∧
    length (gear self) = 200%nat ∧ length (distance self) = 200%nat ∧
    length (time self) = 200%nat.
Proof.
  destruct (ticks_wf irs init init_wf) as (self & Hrun & _ & Hal).
  exists self. split; [exact Hrun | exact Hal].
Qed.

End SamplerClaims.

(** ** The distance of the new sample *)

Section DistanceStep.
Context {A : Type} `{ScalarOrder A}.
Implicit Types (self : IRacingTelemetry A) (ir : IRSDK A).

(** C4.  On a connected tick, with [tp] the last stored session time and
    [dp] the last stored distance: the distance appended is
    [dp + Speed * (SessionTime - tp)] when the speed read is [> 0], and [dp]
    itself when the speed read is [<= 0]. *)
Theorem update_distance_step ir self (n : nat) (tp dp : A) :
  is_connected ir = true → aligned n self → (2 ≤ n)%nat →
  get_back 1 (time self) = Some tp → get_back 1 (distance self) = Some dp →
  ∃ self', update ir self = Some self' ∧
    (ltb (of_Z 0) (Speed ir) = true →
       get_back 1 (distance self') =
         Some (add dp (mul (Speed ir) (sub (SessionTime ir) tp)))) ∧
    (leb (Speed ir) (of_Z 0) = true → get_back 1 (distance self') = Some dp).
Proof.
  intros Hc Hal Hn Htp Hdp. eexists.
  split; [apply (update_connected ir self n tp dp); assumption|].
  simpl. rewrite get_back_snoc. split.
  - intros ->. reflexivity.
  - intros Hle. rewrite (leb_not_gt _ _ Hle). reflexivity.
Qed.

End DistanceStep.

(** The tick of C4 on binary64: after [driving] (last time 100.5 s, last
    distance 5 m), 20 m/s read at 101 s appends [5 + 20 * (101 - 100.5)]. *)
Lemma update_distance_step_witness :
  ∃ self', update (reading 20%float 101%float) (after driving) = Some self' ∧
    (ltb (of_Z 0) 20%float = true →
       get_back 1 (distance self') = Some (5 + 20 * (101 - 100.5))%float) ∧
    (leb 20%float (of_Z 0) = true → get_back 1 (distance self') = Some 5%float).
Proof.
  refine (update_distance_step (reading 20%float 101%float) (after driving) 200
            100.5%float 5%float _ _ _ _ _).
  - reflexivity.
  - repeat split; reflexivity.
  - lia.
  - vm_compute; reflexivity.
  - vm_compute; reflexivity.
Defined.

(** The first connected tick on freshly reset windows, on any carrier: the
    previous time and distance it uses are the zeros the windows were filled
    with. *)
Lemma first_sample_distance {A : Type} `{Scalar A} (ir : IRSDK A) (self : IRacingTelemetry A) :
  is_connected ir = true → history_length self = 200%nat →
  ∃ self', update ir (reset_data self) = Some self' ∧
    get_back 1 (distance self') =
      Some (if ltb (of_Z 0) (Speed ir)
            then add (of_Z 0) (mul (Speed ir) (sub (SessionTime ir) (of_Z 0)))
            else of_Z 0).
Proof.
  intros Hc Hh. eexists. split.
  - apply (update_connected ir (reset_data self) 200 (of_Z 0) (of_Z 0)).
    + exact Hc.
    + rewrite <- Hh. apply reset_data_aligned.
    + lia.
    + unfold reset_data; simpl. rewrite Hh. reflexivity.
    + unfold reset_data; simpl. rewrite Hh. reflexivity.
  - simpl. apply get_back_snoc.
Qed.

(** C6 (the code differs).  The first connected tick after start-up reads
    10 m/s at session time 100 s: the distance appended is
    [0 + 10 * (100 - 0) = 1000], not 0.  The same holds for the first
    connected tick after a reset on disconnection. *)
Theorem first_sample_distance_is_speed_times_session_time :
  (update (reading 10%float 100%float) init ≫= λ self', get_back 1 (distance self'))
    = Some 1000%float ∧
  (ticks (driving ++ [offline; reading 10%float 100%float]) init
     ≫= λ self', get_back 1 (distance self')) = Some 1000%float.
Proof. split; vm_compute; reflexivity. Qed.

(** ** The recurrence holds in every reachable state *)

Lemma lookup_shifted {A : Type} (w : list A) (x : A) (j n : nat) :
  length w = n → (1 ≤ n)%nat →
  (drop 1 w ++ [x]) !! j =
    if decide (j < n - 1)%nat then w !! S j
    else if decide (j = n - 1)%nat then Some x else None.
Proof.
  intros Hl Hn.
  assert (length (drop 1 w) = (n - 1)%nat) as Hd by (rewrite length_drop; lia).
  repeat case_decide.
  - rewrite lookup_app_l by lia. rewrite lookup_drop. reflexivity.
  - rewrite lookup_app_r by lia. replace (j - length (drop 1 w))%nat with 0%nat by lia.
    reflexivity.
  - apply lookup_ge_None. rewrite length_app. simpl. lia.
Qed.

Lemma get_back_1_lookup {A : Type} (w : list A) (x : A) (n : nat) :
  length w = n → get_back 1 w = Some x → w !! (n - 1)%nat = Some x.
Proof. intros <-. unfold get_back. case_decide; [auto | discriminate]. Qed.

Section Recurrence.
Context {A : Type} `{ScalarOrder A}.
Implicit Types (self : IRacingTelemetry A) (ir : IRSDK A).

Lemma recurrence_reset_data self : recurrence (reset_data self).
Proof.
  intros i v t0 t1 d0 d1. unfold reset_data, zeros; simpl.
  intros [-> _]%lookup_replicate _ _ [-> _]%lookup_replicate [-> _]%lookup_replicate.
  rewrite zero_not_gt. reflexivity.
Qed.

Lemma recurrence_update ir self self' (n : nat) :
  aligned n self → (2 ≤ n)%nat → recurrence self →
  update ir self = Some self' → recurrence self'.
Proof.
  intros Hal Hn Hrec Hup. destruct (is_connected ir) eqn:Hc.
  - destruct (aligned_last n self Hal) as (tp & dp & Htp & Hdp); [lia|].
    rewrite (update_connected ir self n tp dp) in Hup by assumption.
    injection Hup as <-.
    destruct Hal as (Hth & Hbr & Hst & Hsp & Hge & Hdi & Hti).
    intros i v t0 t1 d0 d1; simpl.
    rewrite (lookup_shifted (speed self) _ (S i) n),
            (lookup_shifted (time self) _ i n),
            (lookup_shifted (time self) _ (S i) n),
            (lookup_shifted (distance self) _ i n),
            (lookup_shifted (distance self) _ (S i) n) by (assumption || lia).
    destruct (decide (S i < n - 1)%nat) as [Hlt|Hge'].
    + destruct (decide (i < n - 1)%nat); [|lia]. apply Hrec.
    + destruct (decide (S i = n - 1)%nat) as [Heq|]; [|discriminate].
      destruct (decide (i < n - 1)%nat); [|lia].
      rewrite Heq, (get_back_1_lookup _ tp n Hti Htp),
              (get_back_1_lookup _ dp n Hdi Hdp).
      intros [= <-] [= <-] [= <-] [= <-] [= <-]. reflexivity.
  - unfold update in Hup. rewrite Hc in Hup. injection Hup as <-.
    apply recurrence_reset_data.
Qed.

Lemma ticks_recurrence (irs : list (IRSDK A)) self self' :
  wf self → recurrence self → ticks irs self = Some self' → recurrence self'.
Proof.
  revert self. induction irs as [|ir irs IH]; intros self Hwf Hrec; simpl.
  - intros [= <-]. exact Hrec.
  - destruct (update_wf ir self Hwf) as (s1 & Hup & Hwf1). rewrite Hup. simpl.
    apply IH; [exact Hwf1|].
    apply (recurrence_update ir self s1 200); [apply Hwf | lia | exact Hrec | exact Hup].
Qed.

(** Every state the sampler reaches from start-up obeys the recurrence. *)
Lemma reachable_recurrence (irs : list (IRSDK A)) self :
  ticks irs init = Some self → recurrence self.
Proof.
  apply ticks_recurrence; [apply init_wf | unfold init; apply recurrence_reset_data].
Qed.

End Recurrence.

(** ** binary64: adding a non-negative step does not decrease a number *)

(** A mantissa of [k] digits lies in [[2^(k-1), 2^k)]. *)
Lemma digits_bounds (m : positive) : 2 ^ (digits m - 1) ≤ Zpos m < 2 ^ digits m.
Proof.
  unfold digits. induction m as [m IH|m IH|]; simpl digits2_pos.
  - rewrite Pos2Z.inj_succ.
    replace (Z.succ (Z.pos (digits2_pos m)) - 1)
      with (Z.succ (Z.pos (digits2_pos m) - 1)) by lia.
    rewrite !Z.pow_succ_r by lia. lia.
  - rewrite Pos2Z.inj_succ.
    replace (Z.succ (Z.pos (digits2_pos m)) - 1)
      with (Z.succ (Z.pos (digits2_pos m) - 1)) by lia.
    rewrite !Z.pow_succ_r by lia. lia.
  - simpl. lia.
Qed.

Lemma digits_pos (m : positive) : 1 ≤ digits m.
Proof. unfold digits. lia. Qed.

Lemma fexp64 (e : Z) : fexp prec emax e = Z.max (e - 53) emin64.
Proof. reflexivity. Qed.

(** A valid finite number is canonical (its exponent is the one its digits
    call for) and below the overflow threshold. *)
Lemma valid_finite (s : bool) (m : positive) (e : Z) :
  valid_binary (S754_finite s m e) = true →
  e = Z.max (digits m + e - 53) emin64 ∧ e ≤ 971.
Proof.
  unfold valid_binary, bounded, canonical_mantissa. rewrite fexp64.
  intros [H1 H2]%andb_prop. apply Z.eqb_eq in H1. apply Z.leb_le in H2.
  unfold digits. split; [lia|]. exact H2.
Qed.

Lemma pow_pos_lt (a : Z) : 0 ≤ a → 0 < 2 ^ a.
Proof. intros. apply Z.pow_pos_nonneg; lia. Qed.

(** Of two canonical numbers, the one with the smaller exponent is the
    smaller. *)
Lemma canon_lt (m1 m2 : positive) (e1 e2 : Z) :
  e1 = Z.max (digits m1 + e1 - 53) emin64 → e2 = Z.max (digits m2 + e2 - 53) emin64 →
  e1 < e2 → Zpos m1 * 2 ^ (e1 - emin64) < Zpos m2 * 2 ^ (e2 - emin64).
Proof.
  intros H1 H2 Hlt.
  assert (digits m2 = 53) as D2 by lia.
  assert (digits m1 ≤ 53) as D1 by lia.
  assert (emin64 ≤ e1) by lia.
  pose proof (digits_bounds m1) as [_ B1]. pose proof (digits_bounds m2) as [B2 _].
  rewrite D2 in B2.
  assert (Zpos m1 < 2 ^ 53) as B1'.
  { eapply Z.lt_le_trans; [exact B1|]. apply Z.pow_le_mono_r; lia. }
  replace (e2 - emin64) with ((e2 - e1 - 1) + 1 + (e1 - emin64)) by lia.
  rewrite !Z.pow_add_r by lia.
  pose proof (pow_pos_lt (e1 - emin64) ltac:(lia)).
  pose proof (pow_pos_lt (e2 - e1 - 1) ltac:(lia)).
  change (2 ^ (53 - 1)) with 4503599627370496 in B2.
  change (2 ^ 53) with 9007199254740992 in B1'.
  change (2 ^ 1) with 2.
  set (a := 2 ^ (e1 - emin64)) in *. set (b := 2 ^ (e2 - e1 - 1)) in *.
  assert (Z.pos m1 * a < 9007199254740992 * a) by (apply Z.mul_lt_mono_pos_r; lia).
  assert (4503599627370496 * 1 ≤ Z.pos m2 * b) by (apply Z.mul_le_mono_nonneg; lia).
  assert (9007199254740992 * a ≤ Z.pos m2 * b * 2 * a).
  { apply Z.mul_le_mono_nonneg_r; lia. }
  lia.
Qed.

Lemma mag_pos (m : positive) (e : Z) : emin64 ≤ e → 0 < Zpos m * 2 ^ (e - emin64).
Proof. intros He. pose proof (pow_pos_lt (e - emin64) ltac:(lia)). lia. Qed.

Lemma mag_compare (m1 m2 : positive) (e1 e2 : Z) :
  e1 = Z.max (digits m1 + e1 - 53) emin64 → e2 = Z.max (digits m2 + e2 - 53) emin64 →
  (Zpos m1 * 2 ^ (e1 - emin64) ?= Zpos m2 * 2 ^ (e2 - emin64)) =
  match e1 ?= e2 with
  | Lt => Lt
  | Gt => Gt
  | Eq => Pos.compare_cont Eq m1 m2
  end.
Proof.
  intros H1 H2. destruct (e1 ?= e2) eqn:E.
  - apply Z.compare_eq in E. subst e2.
    change (Pos.compare_cont Eq m1 m2) with (m1 ?= m2)%positive.
    pose proof (pow_pos_lt (e1 - emin64) ltac:(lia)) as Hp.
    destruct (Pos.compare_spec m1 m2) as [->|Hlt|Hgt].
    + apply Z.compare_refl.
    + apply Z.compare_lt_iff. apply Z.mul_lt_mono_pos_r; lia.
    + apply Z.compare_gt_iff. apply Z.mul_lt_mono_pos_r; lia.
  - apply Z.compare_lt_iff. apply canon_lt; [assumption..|]. apply Z.compare_lt_iff. exact E.
  - apply Z.compare_gt_iff. apply canon_lt; [assumption..|]. apply Z.compare_gt_iff. exact E.
Qed.

(** On valid finite numbers the comparison of the specification is the
    comparison of the scaled values. *)
Lemma SFcompare_scaled (x y : spec_float) :
  valid_binary x = true → valid_binary y = true → SF_finite x = true → SF_finite y = true →
  SFcompare x y = Some (scaled x ?= scaled y).
Proof.
  intros Vx Vy Fx Fy.
  destruct x as [sx|sx| |sx mx ex]; try discriminate Fx;
  destruct y as [sy|sy| |sy my ey]; try discriminate Fy; cbn [SFcompare scaled].
  - reflexivity.
  - apply valid_finite in Vy as [Cy _]. pose proof (mag_pos my ey ltac:(lia)).
    f_equal. destruct sy; cbn [cond_Zopp]; symmetry.
    + apply Z.compare_gt_iff. lia.
    + apply Z.compare_lt_iff. lia.
  - apply valid_finite in Vx as [Cx _]. pose proof (mag_pos mx ex ltac:(lia)).
    f_equal. destruct sx; cbn [cond_Zopp]; symmetry.
    + apply Z.compare_lt_iff. lia.
    + apply Z.compare_gt_iff. lia.
  - apply valid_finite in Vx as [Cx _]. apply valid_finite in Vy as [Cy _].
    pose proof (mag_pos mx ex ltac:(lia)). pose proof (mag_pos my ey ltac:(lia)).
    f_equal. destruct sx, sy; cbn [cond_Zopp].
    + rewrite Z.compare_opp, (mag_compare my mx ey ex Cy Cx).
      rewrite (Z.compare_antisym ey ex).
      change (Pos.compare_cont Eq my mx) with (my ?= mx)%positive.
      rewrite (Pos.compare_antisym mx my).
      change (Pos.compare_cont Eq mx my) with (mx ?= my)%positive.
      destruct (ey ?= ex); reflexivity.
    + symmetry. apply Z.compare_lt_iff. lia.
    + symmetry. apply Z.compare_gt_iff. lia.
    + rewrite (mag_compare mx my ex ey Cx Cy). reflexivity.
Qed.

(** *** Shifting a mantissa right *)

Lemma iter_pos_inv {A : Type} (f : A → A) (P : nat → A → Prop) :
  (∀ k x, P k x → P (S k) (f x)) →
  ∀ (p : positive) (k : nat) (x : A), P k x → P (k + Pos.to_nat p)%nat (SpecFloat.iter_pos f p x).
Proof.
  intros Hstep. induction p as [p IH|p IH|]; intros k x Hx; simpl.
  - replace (k + Pos.to_nat p~1)%nat with (S k + Pos.to_nat p + Pos.to_nat p)%nat
      by (rewrite Pos2Nat.inj_xI; lia).
    apply IH, IH, Hstep, Hx.
  - replace (k + Pos.to_nat p~0)%nat with (k + Pos.to_nat p + Pos.to_nat p)%nat
      by (rewrite Pos2Nat.inj_xO; lia).
    apply IH, IH, Hx.
  - replace (k + Pos.to_nat 1)%nat with (S k) by (simpl; lia). apply Hstep, Hx.
Qed.

Lemma shr_1_m (r : shr_record) : 0 ≤ shr_m r → shr_m (shr_1 r) = shr_m r / 2.
Proof.
  destruct r as [m r s]; cbn [shr_m]. intros Hm.
  destruct m as [|[p|p|]|p]; cbn [shr_1 shr_m]; try lia.
  - reflexivity.
  - apply Z.div_unique with 1; lia.
  - apply Z.div_unique with 0; lia.
  - reflexivity.
Qed.

Lemma shr_1_r (r : shr_record) : 0 ≤ shr_m r → shr_r (shr_1 r) = Z.odd (shr_m r).
Proof.
  destruct r as [m r s]; simpl. intros Hm.
  destruct m as [|[p|p|]|p]; simpl; try reflexivity; lia.
Qed.

Lemma shr_1_s (r : shr_record) : shr_s (shr_1 r) = orb (shr_r r) (shr_s r).
Proof. destruct r as [m r s]; simpl. destruct m as [|[p|p|]|[p|p|]]; reflexivity. Qed.

Lemma shr_inv_step (M : Z) (k : nat) (r : shr_record) :
  0 ≤ M → shr_inv M k r → shr_inv M (S k) (shr_1 r).
Proof.
  intros HM [Hm Hi].
  assert (0 < 2 ^ Z.of_nat k) as Hp by (apply pow_pos_lt; lia).
  assert (0 ≤ shr_m r) as Hr by (rewrite Hm; apply Z.div_pos; lia).
  assert (2 ^ Z.of_nat (S k) = 2 ^ Z.of_nat k * 2) as E
    by (rewrite Nat2Z.inj_succ, Z.pow_succ_r by lia; lia).
  split.
  - rewrite (shr_1_m r Hr), Hm, E, Z.div_div by lia. reflexivity.
  - rewrite (shr_1_r r Hr), (shr_1_s r), E. intros Hor [c Hc].
    apply orb_prop in Hor as [Hodd|Hrs].
    + rewrite Hm in Hodd. subst M.
      replace (c * (2 ^ Z.of_nat k * 2)) with ((c * 2) * 2 ^ Z.of_nat k) in Hodd by lia.
      rewrite Z.div_mul in Hodd by lia.
      rewrite Z.odd_mul in Hodd. simpl in Hodd. rewrite andb_false_r in Hodd.
      discriminate.
    + apply (Hi Hrs). exists (c * 2). lia.
Qed.

(** [shr] from an exact location: a division by [2^n], inexact only if a
    non-zero bit is lost. *)
Lemma shr_exact_spec (M e n : Z) :
  0 ≤ M →
  ∃ mrs, shr (Build_shr_record M false false) e n = (mrs, e + Z.max n 0) ∧
    shr_m mrs = M / 2 ^ Z.max n 0 ∧
    (orb (shr_r mrs) (shr_s mrs) = true → ¬ (2 ^ Z.max n 0 | M)).
Proof.
  intros HM. unfold shr. destruct n as [|p|p].
  - eexists. split; [f_equal; lia|]. simpl. rewrite Z.div_1_r. split; [reflexivity|discriminate].
  - eexists. split; [reflexivity|].
    assert (shr_inv M (0 + Pos.to_nat p) (SpecFloat.iter_pos shr_1 p (Build_shr_record M false false)))
      as [Hm Hi].
    { apply (iter_pos_inv shr_1 (shr_inv M)).
      - intros k x. apply shr_inv_step. exact HM.
      - split; simpl; [rewrite Z.div_1_r; reflexivity | discriminate]. }
    simpl Nat.add in *. rewrite positive_nat_Z in *.
    replace (Z.max (Z.pos p) 0) with (Z.pos p) by lia. split; assumption.
  - eexists. split; [f_equal; lia|]. simpl. rewrite Z.div_1_r. split; [reflexivity|discriminate].
Qed.

Lemma round_nearest_even_spec (mrs : shr_record) :
  let t' := round_nearest_even (shr_m mrs) (loc_of_shr_record mrs) in
  shr_m mrs ≤ t' ≤ shr_m mrs + 1 ∧
  (t' ≠ shr_m mrs → orb (shr_r mrs) (shr_s mrs) = true).
Proof.
  destruct mrs as [m r s]; simpl. destruct r, s; simpl; try destruct (Z.even m);
    (split; [lia|]); intros Hne; try reflexivity; congruence.
Qed.

Lemma digits_unique (p : positive) (k : Z) : 2 ^ (k - 1) ≤ Zpos p < 2 ^ k → digits p = k.
Proof.
  intros [Hlo Hhi]. pose proof (digits_bounds p) as [Blo Bhi]. pose proof (digits_pos p).
  destruct (Z.lt_trichotomy (digits p) k) as [Hlt|[Heq|Hgt]]; [|exact Heq|].
  - assert (0 ≤ k - 1) by lia.
    assert (2 ^ digits p ≤ 2 ^ (k - 1)) by (apply Z.pow_le_mono_r; lia). lia.
  - destruct (Z.le_gt_cases 0 k) as [Hk|Hk].
    + assert (2 ^ k ≤ 2 ^ (digits p - 1)) by (apply Z.pow_le_mono_r; lia). lia.
    + rewrite (Z.pow_neg_r 2 k) in Hhi by lia. lia.
Qed.

Lemma div_pow_bounds (m : positive) (n : Z) :
  0 ≤ n → digits m - n = 53 →
  2 ^ 52 ≤ Zpos m / 2 ^ n < 2 ^ 53.
Proof.
  intros Hn Hd. pose proof (digits_bounds m) as [Blo Bhi].
  pose proof (pow_pos_lt n Hn) as Hp.
  replace (digits m - 1) with (52 + n) in Blo by lia.
  replace (digits m) with (53 + n) in Bhi by lia.
  rewrite Z.pow_add_r in Blo, Bhi by lia. split.
  - apply Z.div_le_lower_bound; lia.
  - apply Z.div_lt_upper_bound; lia.
Qed.

(** Rounding a mantissa that is not too short for its exponent: the result
    is the truncated mantissa [T] or [T + 1], at the canonical exponent; it
    is [T] when nothing is lost; overflow gives the infinity. *)
Lemma binary_round_aux_spec (s : bool) (m : positive) (e : Z) :
  let e0 := Z.max (digits m + e - 53) emin64 in
  let n := e0 - e in
  emin64 ≤ e → e ≤ e0 →
  ∃ (T' : Z) (m'' : positive) (e'' : Z),
    binary_round_aux prec emax s (Zpos m) e loc_Exact =
      (if e'' <=? 971 then S754_finite s m'' e'' else S754_infinity s) ∧
    Zpos m'' * 2 ^ (e'' - emin64) = T' * 2 ^ (e0 - emin64) ∧
    Zpos m / 2 ^ n ≤ T' ≤ Zpos m / 2 ^ n + 1 ∧
    (T' ≠ Zpos m / 2 ^ n → ¬ (2 ^ n | Zpos m)) ∧
    e0 ≤ e'' ∧
    (emin64 < e0 → 2 ^ 52 ≤ Zpos m / 2 ^ n) ∧
    (971 < e'' → 2 ^ 52 ≤ Zpos m'').
Proof.
  intros e0 n Hemin He0.
  unfold binary_round_aux, shr_fexp. cbn [shr_record_of_loc Zdigits2].
  rewrite fexp64. fold (digits m). fold e0. fold n.
  destruct (shr_exact_spec (Zpos m) e n ltac:(lia)) as (mrs & Hshr & Hm & Hinex).
  rewrite Hshr. replace (Z.max n 0) with n in * by lia.
  replace (e + n) with e0 in * by lia.
  pose proof (round_nearest_even_spec mrs) as [HT Hne]. cbv zeta in HT, Hne.
  set (T' := round_nearest_even (shr_m mrs) (loc_of_shr_record mrs)) in *.
  rewrite Hm in HT, Hne.
  assert (n = 0 ∨ (0 < n ∧ e0 = digits m + e - 53)) as [Hn0|[Hn He0']] by lia.
  - (* already canonical: nothing is shifted out *)
    assert (T' = Zpos m) as HT'.
    { destruct (Z.eq_dec T' (Zpos m / 2 ^ n)) as [Heq|Hneq].
      - rewrite Heq, Hn0. apply Z.div_1_r.
      - exfalso. apply (Hinex (Hne Hneq)). rewrite Hn0. exists (Zpos m). simpl. lia. }
    rewrite HT'. cbn [Zdigits2]. rewrite fexp64. fold (digits m).
    replace (Z.max (digits m + e0 - 53) emin64 - e0) with 0 by lia.
    cbn [shr shr_m].
    exists (Zpos m), m, e0. change (emax - prec) with 971.
    split; [reflexivity|]. split; [reflexivity|].
    rewrite Hn0, Z.div_1_r. split; [lia|]. split; [congruence|]. split; [lia|].
    pose proof (digits_bounds m) as [Blo _].
    split; intros Hbig; (replace (digits m - 1) with 52 in Blo by (unfold emin64 in *; lia));
      exact Blo.
  - (* the low bits are shifted out *)
    pose proof (div_pow_bounds m n ltac:(lia) ltac:(lia)) as [Tlo Thi].
    change (2 ^ 52) with 4503599627370496 in *. change (2 ^ 53) with 9007199254740992 in *.
    assert (0 < T') as Hpos by lia.
    destruct T' as [|t'|t'] eqn:ET; try lia.
    cbn [Zdigits2]. rewrite fexp64. fold (digits t').
    destruct (Z.eq_dec (Zpos t') 9007199254740992) as [Hcarry|Hnocarry].
    + (* the mantissa was rounded up to 2^53 *)
      assert (digits t' = 54) as Hd
        by (apply digits_unique; rewrite Hcarry; split; [vm_compute; discriminate | reflexivity]).
      rewrite Hd. replace (Z.max (54 + e0 - 53) emin64 - e0) with 1 by lia.
      rewrite Hcarry. cbn [shr SpecFloat.iter_pos shr_1 shr_m].
      exists 9007199254740992, 4503599627370496%positive, (e0 + 1).
      change (emax - prec) with 971.
      split; [reflexivity|]. split.
      { replace (e0 + 1 - emin64) with (1 + (e0 - emin64)) by lia.
        rewrite Z.pow_add_r by lia. change (2 ^ 1) with 2. lia. }
      split; [lia|]. split; [|lia].
      intros Hneq. apply Hinex, Hne. rewrite Hcarry. exact Hneq.
    + assert (digits t' = 53) as Hd.
      { apply digits_unique. change (2 ^ (53 - 1)) with 4503599627370496.
        change (2 ^ 53) with 9007199254740992. lia. }
      rewrite Hd. replace (Z.max (53 + e0 - 53) emin64 - e0) with 0 by lia.
      cbn [shr shr_m].
      exists (Zpos t'), t', e0. change (emax - prec) with 971.
      split; [reflexivity|]. split; [reflexivity|]. split; [lia|].
      split; [intros Hneq; apply Hinex, Hne; exact Hneq|]. lia.
Qed.

Lemma iter_xO_val (m d : positive) : Zpos (Pos.iter xO m d) = Zpos m * 2 ^ Zpos d.
Proof.
  induction d as [|d IH] using Pos.peano_ind.
  - simpl. lia.
  - rewrite Pos.iter_succ, Pos2Z.inj_xO, IH, Pos2Z.inj_succ, Z.pow_succ_r by lia. lia.
Qed.

Lemma iter_xO_digits (m d : positive) : digits (Pos.iter xO m d) = digits m + Zpos d.
Proof.
  unfold digits. induction d as [|d IH] using Pos.peano_ind.
  - simpl. lia.
  - rewrite Pos.iter_succ. cbn [digits2_pos]. rewrite Pos2Z.inj_succ, IH. lia.
Qed.

(** The same for [binary_round], in scaled values: with [q] the canonical
    exponent and [X] the exact value, the result is [T' * 2^q] with [T'] the
    quotient [X / 2^q] or its successor. *)
Lemma binary_round_spec (s : bool) (m : positive) (e : Z) :
  let X := Zpos m * 2 ^ (e - emin64) in
  let q := Z.max (digits m + e - 53) emin64 - emin64 in
  emin64 ≤ e →
  ∃ (T' : Z) (m'' : positive) (e'' : Z),
    binary_round prec emax s m e =
      (if e'' <=? 971 then S754_finite s m'' e'' else S754_infinity s) ∧
    Zpos m'' * 2 ^ (e'' - emin64) = T' * 2 ^ q ∧
    X / 2 ^ q ≤ T' ≤ X / 2 ^ q + 1 ∧
    (T' ≠ X / 2 ^ q → ¬ (2 ^ q | X)) ∧
    (0 < q → 2 ^ 52 ≤ X / 2 ^ q) ∧
    (971 < e'' → 2 ^ 52 ≤ Zpos m'').
Proof.
  intros X q Hemin. unfold binary_round, shl_align. rewrite fexp64. fold (digits m).
  set (e0 := Z.max (digits m + e - 53) emin64) in *.
  destruct (e0 - e) as [|d|d] eqn:Ed.
  - (* e0 = e *)
    assert (e ≤ e0) as Hle by lia. assert (e0 = e) as Ee by lia.
    destruct (binary_round_aux_spec s m e Hemin Hle)
      as (T' & m'' & e'' & Hr & HR & HT & Hne & He'' & Hn & Hbig).
    cbv zeta in *. fold e0 in Hr, HR, HT, Hne, He'', Hn, Hbig.
    replace (e0 - e) with 0 in * by lia. rewrite Z.div_1_r in *.
    assert (X / 2 ^ q = Zpos m) as EX.
    { unfold X, q. replace (e0 - emin64) with (e - emin64) by lia.
      apply Z.div_mul. pose proof (pow_pos_lt (e - emin64) ltac:(lia)). lia. }
    exists T', m'', e''. rewrite EX. unfold q.
    split; [exact Hr|]. split; [exact HR|]. split; [exact HT|].
    split; [intros Hneq; exfalso; apply (Hne Hneq); exists (Zpos m); simpl; lia|].
    split; [intros Hq; apply Hn; lia | exact Hbig].
  - (* e0 > e: bits are shifted out *)
    assert (e ≤ e0) as Hle by lia. assert (e0 = Zpos d + e) as Ee by lia.
    destruct (binary_round_aux_spec s m e Hemin Hle)
      as (T' & m'' & e'' & Hr & HR & HT & Hne & He'' & Hn & Hbig).
    cbv zeta in *. fold e0 in Hr, HR, HT, Hne, He'', Hn, Hbig.
    rewrite Ed in *.
    pose proof (pow_pos_lt (e - emin64) ltac:(lia)) as Hc.
    pose proof (pow_pos_lt (Zpos d) ltac:(lia)) as Hd.
    assert (2 ^ q = 2 ^ Zpos d * 2 ^ (e - emin64)) as Eq.
    { unfold q. replace (e0 - emin64) with (Zpos d + (e - emin64)) by lia.
      apply Z.pow_add_r; lia. }
    assert (X / 2 ^ q = Zpos m / 2 ^ Zpos d) as EX.
    { rewrite Eq. unfold X. apply Z.div_mul_cancel_r; lia. }
    exists T', m'', e''. rewrite EX.
    split; [exact Hr|]. split; [exact HR|]. split; [exact HT|].
    split.
    { intros Hneq Hdiv. apply (Hne Hneq). rewrite Eq in Hdiv. unfold X in Hdiv.
      apply Z.mul_divide_cancel_r in Hdiv; [exact Hdiv | lia]. }
    split; [intros Hq; apply Hn; lia | exact Hbig].
  - (* e0 < e: the mantissa is shifted left first *)
    assert (digits (Pos.iter xO m d) + e0 - 53 = digits m + e - 53) as Edg
      by (rewrite iter_xO_digits; lia).
    assert (emin64 ≤ e0) as He0 by (unfold e0; lia).
    assert (e = Zpos d + e0) as Ee by lia.
    assert (e0 ≤ Z.max (digits (Pos.iter xO m d) + e0 - 53) emin64) as Hle
      by (rewrite Edg; change (e0 ≤ e0); lia).
    destruct (binary_round_aux_spec s (Pos.iter xO m d) e0 He0 Hle)
      as (T' & m'' & e'' & Hr & HR & HT & Hne & He'' & Hn & Hbig).
    cbv zeta in *. rewrite Edg in HR, HT, Hne, He'', Hn.
    fold e0 in HR, HT, Hne, He'', Hn.
    replace (e0 - e0) with 0 in * by lia. rewrite Z.div_1_r in *.
    pose proof (pow_pos_lt (e0 - emin64) ltac:(lia)) as Hc.
    assert (X = Zpos (Pos.iter xO m d) * 2 ^ q) as EX'.
    { unfold X, q. fold e0. rewrite iter_xO_val.
      replace (e - emin64) with (Zpos d + (e0 - emin64)) by lia.
      rewrite Z.pow_add_r by lia. lia. }
    assert (X / 2 ^ q = Zpos (Pos.iter xO m d)) as EX.
    { rewrite EX'. apply Z.div_mul. unfold q. fold e0. lia. }
    exists T', m'', e''. rewrite EX. unfold q. fold e0.
    split; [exact Hr|]. split; [exact HR|]. split; [exact HT|].
    split; [intros Hneq; exfalso; apply (Hne Hneq); exists (Zpos (Pos.iter xO m d)); simpl; lia|].
    split; [intros Hq; apply Hn; lia | exact Hbig].
Qed.

(** *** Rounding is monotone against representable numbers *)

Lemma canon_mag_lt (md : positive) (ed : Z) :
  ed = Z.max (digits md + ed - 53) emin64 →
  Zpos md * 2 ^ (ed - emin64) < 2 ^ 53 * 2 ^ (ed - emin64).
Proof.
  intros Hc. pose proof (digits_bounds md) as [_ B].
  assert (2 ^ digits md ≤ 2 ^ 53) by (apply Z.pow_le_mono_r; lia).
  pose proof (pow_pos_lt (ed - emin64) ltac:(lia)).
  apply Z.mul_lt_mono_pos_r; lia.
Qed.

Lemma pow_split (a b : Z) : 0 ≤ a → 0 ≤ b → 2 ^ (a + b) = 2 ^ a * 2 ^ b.
Proof. intros. apply Z.pow_add_r; lia. Qed.

(** A canonical number with an exponent below [q] is below every normal
    number of exponent [q]. *)
Lemma below_normal (md : positive) (ed q T : Z) :
  ed = Z.max (digits md + ed - 53) emin64 → ed - emin64 < q → 2 ^ 52 ≤ T →
  Zpos md * 2 ^ (ed - emin64) < T * 2 ^ q.
Proof.
  intros Hc Hq HT. pose proof (canon_mag_lt md ed Hc) as HV.
  replace q with ((q - (ed - emin64) - 1) + 1 + (ed - emin64)) by lia.
  rewrite !pow_split by lia. change (2 ^ 1) with 2.
  pose proof (pow_pos_lt (ed - emin64) ltac:(lia)) as Ha.
  pose proof (pow_pos_lt (q - (ed - emin64) - 1) ltac:(lia)) as Hb.
  set (a := 2 ^ (ed - emin64)) in *. set (b := 2 ^ (q - (ed - emin64) - 1)) in *.
  change (2 ^ 53) with (2 ^ 52 * 2) in HV.
  assert (2 ^ 52 * 1 ≤ T * b) by (apply Z.mul_le_mono_nonneg; lia).
  assert (2 ^ 52 * 2 * a ≤ T * b * 2 * a) by (apply Z.mul_le_mono_nonneg_r; lia).
  lia.
Qed.

(** A canonical number not above the exact value is not above the rounded
    one. *)
Lemma round_ge (s : bool) (m md : positive) (e ed : Z) :
  emin64 ≤ e → ed = Z.max (digits md + ed - 53) emin64 →
  Zpos md * 2 ^ (ed - emin64) ≤ Zpos m * 2 ^ (e - emin64) →
  binary_round prec emax s m e = S754_infinity s ∨
  ∃ (m'' : positive) (e'' : Z),
    binary_round prec emax s m e = S754_finite s m'' e'' ∧
    Zpos md * 2 ^ (ed - emin64) ≤ Zpos m'' * 2 ^ (e'' - emin64).
Proof.
  intros He Hc HV.
  destruct (binary_round_spec s m e He) as (T' & m'' & e'' & Hr & HR & HT & _ & Hn & _).
  cbv zeta in *.
  set (X := Zpos m * 2 ^ (e - emin64)) in *.
  set (q := Z.max (digits m + e - 53) emin64 - emin64) in *.
  assert (0 ≤ q) as Hq by (unfold q; lia).
  pose proof (pow_pos_lt q Hq) as Hp.
  destruct (e'' <=? 971); [right | left; exact Hr].
  exists m'', e''. split; [exact Hr|]. rewrite HR.
  apply Z.le_trans with (X / 2 ^ q * 2 ^ q); [|apply Z.mul_le_mono_nonneg_r; lia].
  destruct (Z.le_gt_cases q (ed - emin64)) as [Hle|Hgt].
  - set (c := Zpos md * 2 ^ (ed - emin64 - q)).
    assert (Zpos md * 2 ^ (ed - emin64) = c * 2 ^ q) as EV.
    { unfold c. rewrite <- Z.mul_assoc, <- pow_split by lia. f_equal. f_equal. lia. }
    rewrite EV in *. apply Z.mul_le_mono_nonneg_r; [lia|].
    apply Z.div_le_lower_bound; lia.
  - apply Z.lt_le_incl. apply below_normal; [exact Hc | lia | apply Hn; lia].
Qed.

(** A canonical number not below the exact value is not below the rounded
    one, and rounding does not overflow. *)
Lemma round_le (s : bool) (m md : positive) (e ed : Z) :
  emin64 ≤ e → ed = Z.max (digits md + ed - 53) emin64 → ed ≤ 971 →
  Zpos m * 2 ^ (e - emin64) ≤ Zpos md * 2 ^ (ed - emin64) →
  ∃ (m'' : positive) (e'' : Z),
    binary_round prec emax s m e = S754_finite s m'' e'' ∧
    Zpos m'' * 2 ^ (e'' - emin64) ≤ Zpos md * 2 ^ (ed - emin64).
Proof.
  intros He Hc Hed HV.
  destruct (binary_round_spec s m e He) as (T' & m'' & e'' & Hr & HR & HT & Hne & Hn & Hbig).
  cbv zeta in *.
  set (X := Zpos m * 2 ^ (e - emin64)) in *.
  set (q := Z.max (digits m + e - 53) emin64 - emin64) in *.
  assert (0 ≤ q) as Hq by (unfold q; lia).
  pose proof (pow_pos_lt q Hq) as Hp.
  assert (X / 2 ^ q * 2 ^ q ≤ X) as Hfloor by (rewrite Z.mul_comm; apply Z.mul_div_le; lia).
  assert (Zpos m'' * 2 ^ (e'' - emin64) ≤ Zpos md * 2 ^ (ed - emin64)) as HRV.
  { rewrite HR. destruct (Z.le_gt_cases q (ed - emin64)) as [Hle|Hgt].
    - set (c := Zpos md * 2 ^ (ed - emin64 - q)).
      assert (Zpos md * 2 ^ (ed - emin64) = c * 2 ^ q) as EV.
      { unfold c. rewrite <- Z.mul_assoc, <- pow_split by lia. f_equal. f_equal. lia. }
      rewrite EV in *. apply Z.mul_le_mono_nonneg_r; [lia|].
      assert (X / 2 ^ q ≤ c) as HTc by (apply Z.div_le_upper_bound; lia).
      destruct (Z.eq_dec T' (X / 2 ^ q)) as [->|Hneq]; [exact HTc|].
      assert (X ≠ c * 2 ^ q) as HX by (intros EX; apply (Hne Hneq); exists c; exact EX).
      assert (X / 2 ^ q < c) by (apply Z.div_lt_upper_bound; lia). lia.
    - exfalso. pose proof (below_normal md ed q (X / 2 ^ q) Hc ltac:(lia) ltac:(apply Hn; lia)).
      lia. }
  exists m'', e''. split; [|exact HRV].
  destruct (Z.leb_spec e'' 971) as [Hfin|Hinf]; [exact Hr|]. exfalso.
  specialize (Hbig Hinf). pose proof (canon_mag_lt md ed Hc) as HVlt.
  assert (2 ^ 53 * 2 ^ (ed - emin64) ≤ Zpos m'' * 2 ^ (e'' - emin64)); [|lia].
  replace (e'' - emin64) with ((e'' - ed - 1) + 1 + (ed - emin64)) by lia.
  rewrite !pow_split by (unfold emin64 in *; lia). change (2 ^ 1) with 2.
  pose proof (pow_pos_lt (ed - emin64) ltac:(lia)) as Ha.
  pose proof (pow_pos_lt (e'' - ed - 1) ltac:(lia)) as Hb.
  change (2 ^ 53) with (2 ^ 52 * 2).
  assert (2 ^ 52 * 1 ≤ Zpos m'' * 2 ^ (e'' - ed - 1)) by (apply Z.mul_le_mono_nonneg; lia).
  assert (2 ^ 52 * 2 * 2 ^ (ed - emin64) ≤
          Zpos m'' * 2 ^ (e'' - ed - 1) * 2 * 2 ^ (ed - emin64))
    by (apply Z.mul_le_mono_nonneg_r; lia).
  lia.
Qed.

(** *** Signs of products and differences *)

Lemma binary_round_aux_sign (s : bool) (m : positive) (e : Z) :
  (∃ s', binary_round_aux prec emax s (Zpos m) e loc_Exact = S754_zero s') ∨
  binary_round_aux prec emax s (Zpos m) e loc_Exact = S754_infinity s ∨
  ∃ m' e', binary_round_aux prec emax s (Zpos m) e loc_Exact = S754_finite s m' e'.
Proof.
  unfold binary_round_aux, shr_fexp. cbn [shr_record_of_loc].
  destruct (shr_exact_spec (Zpos m) e (fexp prec emax (Zdigits2 (Zpos m) + e) - e) ltac:(lia))
    as (mrs & -> & Hm & _).
  pose proof (round_nearest_even_spec mrs) as [HT _]. cbv zeta in HT.
  set (T' := round_nearest_even (shr_m mrs) (loc_of_shr_record mrs)) in *.
  assert (0 ≤ T') as HT'.
  { assert (0 ≤ shr_m mrs); [|lia]. rewrite Hm. apply Z.div_pos; [lia|].
    apply pow_pos_lt. lia. }
  cbn [shr_record_of_loc].
  destruct (shr_exact_spec T'
              (e + Z.max (fexp prec emax (Zdigits2 (Zpos m) + e) - e) 0)
              (fexp prec emax (Zdigits2 T' +
                 (e + Z.max (fexp prec emax (Zdigits2 (Zpos m) + e) - e) 0)) -
               (e + Z.max (fexp prec emax (Zdigits2 (Zpos m) + e) - e) 0)) HT')
    as (mrs2 & -> & Hm2 & _).
  assert (0 ≤ shr_m mrs2) as H2.
  { rewrite Hm2. apply Z.div_pos; [lia|]. apply pow_pos_lt. lia. }
  destruct (shr_m mrs2) as [|p|p]; [left; eauto| |lia].
  right. destruct (_ <=? _); [right; eauto | left; reflexivity].
Qed.

Lemma binary_round_sign (s : bool) (m : positive) (e : Z) :
  (∃ s', binary_round prec emax s m e = S754_zero s') ∨
  binary_round prec emax s m e = S754_infinity s ∨
  ∃ m' e', binary_round prec emax s m e = S754_finite s m' e'.
Proof.
  unfold binary_round. destruct (shl_align _ _ _) as [mz ez].
  apply binary_round_aux_sign.
Qed.

(** A positive number times a non-negative one is non-negative. *)
Lemma SFmul_nonneg (mv : positive) (ev : Z) (x : spec_float) :
  SF_nonneg x = true → SF_nonneg (SFmul prec emax (S754_finite false mv ev) x) = true.
Proof.
  destruct x as [s|[|]| |[|] mx ex]; try discriminate; intros _; cbn [SFmul xorb];
    try reflexivity.
  destruct (binary_round_aux_sign false (mv * mx) (ev + ex))
    as [[s' ->]|[->|(m' & e' & ->)]]; reflexivity.
Qed.

(** *** Subtracting the smaller from the larger *)

Lemma shl_align_val (m : positive) (e e' : Z) :
  e' ≤ e → Zpos (fst (shl_align m e e')) = Zpos m * 2 ^ (e - e').
Proof.
  intros Hle. unfold shl_align. destruct (e' - e) as [|k|k] eqn:Ek; cbn [fst].
  - replace (e - e') with 0 by lia. simpl. lia.
  - lia.
  - change (PosDef.Pos.iter xO m k) with (Pos.iter xO m k).
    rewrite iter_xO_val. f_equal. f_equal. lia.
Qed.

Lemma shl_align_scaled (s : bool) (m : positive) (e ez : Z) :
  emin64 ≤ ez → ez ≤ e →
  cond_Zopp s (Zpos (fst (shl_align m e ez))) * 2 ^ (ez - emin64) =
  scaled (S754_finite s m e).
Proof.
  intros H1 H2. rewrite (shl_align_val m e ez H2). cbn [scaled].
  replace (e - emin64) with ((e - ez) + (ez - emin64)) by lia.
  rewrite pow_split by lia. destruct s; cbn [cond_Zopp]; lia.
Qed.

Lemma SFleb_scaled (x y : spec_float) :
  valid_binary x = true → valid_binary y = true → SF_finite x = true → SF_finite y = true →
  SFleb x y = true ↔ scaled x ≤ scaled y.
Proof.
  intros Vx Vy Fx Fy. unfold SFleb. rewrite (SFcompare_scaled x y Vx Vy Fx Fy).
  destruct (Z.compare_spec (scaled x) (scaled y)); split; intros; (lia || discriminate || reflexivity).
Qed.

Lemma valid_emin (s : bool) (m : positive) (e : Z) :
  valid_binary (S754_finite s m e) = true → emin64 ≤ e.
Proof. intros [H _]%valid_finite. lia. Qed.

(** [t1 - t0] is non-negative when [t0 <= t1]. *)
Lemma SFsub_nonneg (t1 t0 : spec_float) :
  valid_binary t1 = true → valid_binary t0 = true → SF_finite t1 = true → SF_finite t0 = true →
  SFleb t0 t1 = true → SF_nonneg (SFsub prec emax t1 t0) = true.
Proof.
  intros V1 V0 F1 F0 Hle.
  destruct t1 as [s1|s1| |s1 m1 e1]; try discriminate F1;
  destruct t0 as [s0|s0| |s0 m0 e0]; try discriminate F0; cbn [SFsub].
  - destruct s1, s0; reflexivity.
  - destruct s0; [reflexivity | discriminate Hle].
  - destruct s1; [discriminate Hle | reflexivity].
  - pose proof (valid_emin _ _ _ V1). pose proof (valid_emin _ _ _ V0).
    apply (SFleb_scaled _ _ V0 V1 F0 F1) in Hle.
    set (ez := Z.min e1 e0) in *.
    rewrite <- (shl_align_scaled s1 m1 e1 ez), <- (shl_align_scaled s0 m0 e0 ez) in Hle by lia.
    pose proof (pow_pos_lt (ez - emin64) ltac:(lia)) as Hp.
    set (M1 := cond_Zopp s1 (Zpos (fst (shl_align m1 e1 ez)))) in *.
    set (M0 := cond_Zopp s0 (Zpos (fst (shl_align m0 e0 ez)))) in *.
    assert (0 ≤ M1 - M0) as HM by nia.
    unfold binary_normalize. destruct (M1 - M0) as [|p|p]; [reflexivity| |lia].
    destruct (binary_round_sign false p ez) as [[s' ->]|[->|(m' & e' & ->)]]; reflexivity.
Qed.

(** *** Adding a non-negative number *)

Lemma SFcompare_refl (x : spec_float) : x ≠ S754_nan → SFcompare x x = Some Eq.
Proof.
  intros Hx. destruct x as [s|s| |s m e]; try done; simpl.
  - destruct s; reflexivity.
  - rewrite Z.compare_refl, Pos.compare_cont_refl. destruct s; reflexivity.
Qed.

(** [d <= d + x] for finite [d] and non-negative [x]. *)
Lemma SFadd_ge (d x : spec_float) :
  valid_binary d = true → valid_binary x = true →
  valid_binary (SFadd prec emax d x) = true →
  SF_finite d = true → SF_nonneg x = true →
  SFleb d (SFadd prec emax d x) = true.
Proof.
  intros Vd Vx Vr Fd Nx. unfold SFleb.
  destruct d as [sd|sd| |sd md ed]; try discriminate Fd;
  destruct x as [sx|[|]| |[|] mx ex]; try discriminate Nx; cbn [SFadd] in *.
  - destruct sd, sx; reflexivity.
  - reflexivity.
  - reflexivity.
  - rewrite SFcompare_refl by discriminate. reflexivity.
  - destruct sd; reflexivity.
  - pose proof (valid_emin _ _ _ Vd) as Hed. pose proof (valid_emin _ _ _ Vx) as Hex.
    set (ez := Z.min ed ex) in *.
    pose proof (shl_align_scaled sd md ed ez ltac:(lia) ltac:(lia)) as Ha.
    pose proof (shl_align_scaled false mx ex ez ltac:(lia) ltac:(lia)) as Hb.
    pose proof (pow_pos_lt (ez - emin64) ltac:(lia)) as Hp.
    pose proof (mag_pos md ed Hed) as Hmd. pose proof (mag_pos mx ex Hex) as Hmx.
    cbn [scaled cond_Zopp] in Hb.
    set (A := cond_Zopp sd (Zpos (fst (shl_align md ed ez)))) in *.
    set (B := Zpos (fst (shl_align mx ex ez))) in *.
    change (cond_Zopp false B) with B in *.
    destruct (valid_finite _ _ _ Vd) as [Cd Bd].
    unfold binary_normalize in *. destruct (A + B) as [|p|p] eqn:EM.
    + (* the sum is zero: d was negative *)
      destruct sd; [reflexivity|]. cbn [scaled cond_Zopp] in Ha. nia.
    + destruct sd.
      * (* negative d, positive sum *)
        destruct (binary_round_sign false p ez) as [[s' ->]|[->|(m' & e' & ->)]];
          reflexivity.
      * (* positive d, larger positive sum *)
        cbn [scaled cond_Zopp] in Ha.
        assert (Zpos md * 2 ^ (ed - emin64) ≤ Zpos p * 2 ^ (ez - emin64)) as HV by nia.
        destruct (round_ge false p md ez ed ltac:(lia) Cd HV) as [Hinf|(m'' & e'' & Hr & HR)].
        -- rewrite Hinf. reflexivity.
        -- rewrite Hr in *.
           rewrite (SFcompare_scaled _ _ Vd Vr eq_refl eq_refl). cbn [scaled cond_Zopp].
           destruct (Z.compare_spec (Zpos md * 2 ^ (ed - emin64))
                       (Zpos m'' * 2 ^ (e'' - emin64))); (reflexivity || lia).
    + (* negative sum: d was negative, and the sum is closer to zero *)
      destruct sd; [|cbn [scaled cond_Zopp] in Ha; nia].
      cbn [scaled cond_Zopp] in Ha.
      assert (Zpos p * 2 ^ (ez - emin64) ≤ Zpos md * 2 ^ (ed - emin64)) as HV by nia.
      destruct (round_le true p md ez ed ltac:(lia) Cd Bd HV) as (m'' & e'' & Hr & HR).
      rewrite Hr in *.
      rewrite (SFcompare_scaled _ _ Vd Vr eq_refl eq_refl). cbn [scaled cond_Zopp].
      destruct (Z.compare_spec (- (Zpos md * 2 ^ (ed - emin64)))
                  (- (Zpos m'' * 2 ^ (e'' - emin64)))); (reflexivity || lia).
Qed.

(** *** The step of the distance on binary64 *)

(** On binary64, with rounding: for finite numbers, [v > 0] and
    [t0 <= t1], [d <= d + v * (t1 - t0)]. *)
Theorem float_advance_le (d v t0 t1 : float) :
  F64.is_finite d = true → F64.is_finite v = true →
  F64.is_finite t0 = true → F64.is_finite t1 = true →
  PrimFloat.ltb 0 v = true → PrimFloat.leb t0 t1 = true →
  PrimFloat.leb d (d + v * (t1 - t0)) = true.
Proof.
  unfold F64.is_finite. intros Fd Fv F0 F1 Hv Ht.
  rewrite ltb_spec in Hv. rewrite leb_spec in Ht. rewrite leb_spec, add_spec.
  pose proof (Prim2SF_valid (d + v * (t1 - t0))) as Vr. rewrite add_spec in Vr.
  pose proof (Prim2SF_valid (v * (t1 - t0))) as Vx.
  assert (SF_nonneg (Prim2SF (v * (t1 - t0))) = true) as Nx.
  { rewrite mul_spec. change (Prim2SF 0) with (S754_zero false) in Hv.
    destruct (Prim2SF v) as [sv|sv| |[|] mv ev]; try discriminate.
    apply SFmul_nonneg. rewrite sub_spec.
    apply SFsub_nonneg; auto using Prim2SF_valid. }
  apply SFadd_ge; auto using Prim2SF_valid.
Qed.

(** ** Monotonicity of the distance *)

Lemma exact_zero : (of_Z 0 : Qc) = 0%Qc.
Proof. apply Qc_is_canon. reflexivity. Qed.

Lemma exact_advance_le (d v t0 t1 : Qc) :
  (0 < v)%Qc → (t0 ≤ t1)%Qc → (d ≤ d + v * (t1 - t0))%Qc.
Proof.
  intros Hv Ht.
  assert (0 ≤ t1 - t0)%Qc as Hdt by (apply (proj1 (Qcle_minus_iff t0 t1)); exact Ht).
  assert (0 ≤ v * (t1 - t0))%Qc as Hp.
  { rewrite <- (Qcmult_0_l (t1 - t0)).
    apply Qcmult_le_compat_r; [apply Qclt_le_weak; exact Hv | exact Hdt]. }
  rewrite <- (Qcplus_0_r d) at 1. apply (proj1 (Qcplus_le_mono_l _ _ d)). exact Hp.
Qed.

(** C5, as stated, fails, on binary64 and in exact arithmetic alike.  After
    [session_restart] the last two samples have a positive speed at the
    later one (10 m/s) and distances 5 m then -995 m: the session time went
    from 100.5 s back to 0.5 s, and [5 + 10 * (0.5 - 100.5) = -995]. *)
Lemma distance_decreases_when_session_time_restarts :
  (∃ (self : IRacingTelemetry float) (v d0 d1 : float),
     ticks session_restart init = Some self ∧
     speed self !! 199%nat = Some v ∧ ltb (of_Z 0) v = true ∧
     distance self !! 198%nat = Some d0 ∧ distance self !! 199%nat = Some d1 ∧
     d0 = 5%float ∧ d1 = (-995)%float ∧ leb d0 d1 = false ∧
     ¬ non_decreasing_at self 198) ∧
  (∃ (self : IRacingTelemetry Qc) (v d0 d1 : Qc),
     ticks session_restart init = Some self ∧
     speed self !! 199%nat = Some v ∧ (0 < v)%Qc ∧
     distance self !! 198%nat = Some d0 ∧ distance self !! 199%nat = Some d1 ∧
     d0 = of_Z 5 ∧ d1 = of_Z (-995) ∧ (d1 < d0)%Qc ∧
     ¬ non_decreasing_at self 198).
Proof.
  split.
  - exists (after session_restart), 10%float, 5%float, (-995)%float.
    assert (speed (after (A:=float) session_restart) !! 199%nat = Some 10%float) as Hv
      by (vm_compute; reflexivity).
    assert (distance (after (A:=float) session_restart) !! 198%nat = Some 5%float) as H0
      by (vm_compute; reflexivity).
    assert (distance (after (A:=float) session_restart) !! 199%nat = Some (-995)%float)
      as H1 by (vm_compute; reflexivity).
    repeat (split; [first [assumption | vm_compute; reflexivity]|]).
    intros Hmono. specialize (Hmono _ _ _ Hv eq_refl H0 H1). vm_compute in Hmono.
    discriminate Hmono.
  - exists (after session_restart), (of_Z 10), (of_Z 5), (of_Z (-995)).
    assert (speed (after (A:=Qc) session_restart) !! 199%nat = Some (of_Z 10)) as Hv
      by (vm_compute; reflexivity).
    assert (distance (after (A:=Qc) session_restart) !! 198%nat = Some (of_Z 5)) as H0
      by (vm_compute; reflexivity).
    assert (distance (after (A:=Qc) session_restart) !! 199%nat = Some (of_Z (-995)))
      as H1 by (vm_compute; reflexivity).
    repeat (split; [first [assumption | vm_compute; reflexivity]|]).
    intros Hmono. specialize (Hmono _ _ _ Hv eq_refl H0 H1). vm_compute in Hmono.
    discriminate Hmono.
Qed.

(** C5, amended.  In every state reached from start-up, for neighbouring
    samples [i], [i+1] with [speed[i+1] > 0] and session time not running
    backwards ([time[i] <= time[i+1]]): [distance[i] <= distance[i+1]].  In
    exact arithmetic this holds as it stands; on binary64, with its
    rounding, it holds whenever the four numbers involved are finite. *)
Theorem distance_non_decreasing_while_time_advances :
  (∀ (irs : list (IRSDK Qc)) (self : IRacingTelemetry Qc) (i : nat)
     (v t0 t1 d0 d1 : Qc),
     ticks irs init = Some self →
     speed self !! S i = Some v → (0 < v)%Qc →
     time self !! i = Some t0 → time self !! S i = Some t1 → (t0 ≤ t1)%Qc →
     distance self !! i = Some d0 → distance self !! S i = Some d1 →
     (d0 ≤ d1)%Qc) ∧
  (∀ (irs : list (IRSDK float)) (self : IRacingTelemetry float) (i : nat)
     (v t0 t1 d0 d1 : float),
     ticks irs init = Some self →
     speed self !! S i = Some v → ltb (of_Z 0) v = true →
     time self !! i = Some t0 → time self !! S i = Some t1 → leb t0 t1 = true →
     distance self !! i = Some d0 → distance self !! S i = Some d1 →
     F64.is_finite v = true → F64.is_finite t0 = true →
     F64.is_finite t1 = true → F64.is_finite d0 = true →
     leb d0 d1 = true).
Proof.
  split.
  - intros irs self i v t0 t1 d0 d1 Hrun Hv Hpos Ht0 Ht1 Hle Hd0 Hd1.
    rewrite (reachable_recurrence irs self Hrun i v t0 t1 d0 d1 Hv Ht0 Ht1 Hd0 Hd1).
    rewrite exact_zero, (proj2 (exact_ltb_lt 0 v) Hpos).
    apply exact_advance_le; assumption.
  - intros irs self i v t0 t1 d0 d1 Hrun Hv Hpos Ht0 Ht1 Hle Hd0 Hd1 Fv F0 F1 Fd.
    rewrite (reachable_recurrence irs self Hrun i v t0 t1 d0 d1 Hv Ht0 Ht1 Hd0 Hd1).
    rewrite Hpos. apply float_advance_le; assumption.
Qed.

(** The amended C5 at the last two samples after [driving], on both
    carriers. *)
Lemma distance_non_decreasing_witness :
  (of_Z 0 ≤ of_Z 5)%Qc ∧ leb 0%float 5%float = true.
Proof.
  split.
  - refine (proj1 distance_non_decreasing_while_time_advances driving (after driving)
              198%nat (of_Z 10) (of_Z 100) (lit 100.5) (of_Z 0) (of_Z 5)
              _ _ _ _ _ _ _ _).
    + vm_compute; reflexivity.
    + vm_compute; reflexivity.
    + vm_compute; reflexivity.
    + vm_compute; reflexivity.
    + vm_compute; reflexivity.
    + vm_compute; discriminate.
    + vm_compute; reflexivity.
    + vm_compute; reflexivity.
  - refine (proj2 distance_non_decreasing_while_time_advances driving (after driving)
              198%nat 10%float 100%float 100.5%float 0%float 5%float
              _ _ _ _ _ _ _ _ _ _ _ _).
    + vm_compute; reflexivity.
    + vm_compute; reflexivity.
    + reflexivity.
    + vm_compute; reflexivity.
    + vm_compute; reflexivity.
    + reflexivity.
    + vm_compute; reflexivity.
    + vm_compute; reflexivity.
    + reflexivity.
    + reflexivity.
    + reflexivity.
    + reflexivity.
Defined.

(** ** A tick with no time elapsed *)

Lemma float_sub_diag (t : float) : F64.is_finite t = true → (t - t)%float = 0%float.
Proof.
  intros Hf. apply Prim2SF_inj. rewrite sub_spec. unfold F64.is_finite in Hf.
  destruct (Prim2SF t) as [s|s| |s m e]; try discriminate Hf.
  - destruct s; reflexivity.
  - unfold SF64sub, SFsub. rewrite Z.sub_diag. reflexivity.
Qed.

Lemma float_mul_zero (v : float) :
  F64.is_finite v = true → ∃ s, Prim2SF (v * 0)%float = S754_zero s.
Proof.
  intros Hf. rewrite mul_spec. unfold F64.is_finite in Hf.
  change (Prim2SF 0%float) with (S754_zero false).
  destruct (Prim2SF v) as [s|s| |s m e]; try discriminate Hf; simpl; eauto.
Qed.

Lemma SFeqb_refl (x : spec_float) : x ≠ S754_nan → SFeqb x x = true.
Proof.
  intros Hx. unfold SFeqb. destruct x as [s|s| |s m e]; try done; simpl.
  - destruct s; reflexivity.
  - rewrite Z.compare_refl, Pos.compare_cont_refl. destruct s; reflexivity.
Qed.

Lemma float_add_zero (d z : float) (s : bool) :
  Prim2SF z = S754_zero s → F64.is_nan d = false → (d + z =? d)%float = true.
Proof.
  intros Hz Hd. rewrite FloatAxioms.eqb_spec, add_spec, Hz. unfold F64.is_nan in Hd.
  destruct (Prim2SF d) as [sd|sd| |sd m e] eqn:E; try discriminate Hd.
  - destruct sd, s; reflexivity.
  - destruct sd; reflexivity.
  - unfold SF64add, SFadd. apply SFeqb_refl. discriminate.
Qed.

Lemma float_eqb_refl (d : float) : F64.is_nan d = false → (d =? d)%float = true.
Proof.
  intros Hd. rewrite FloatAxioms.eqb_spec. apply SFeqb_refl. unfold F64.is_nan in Hd.
  destruct (Prim2SF d); (discriminate Hd || discriminate).
Qed.

(** C10.  On a connected tick whose session time equals the last stored one
    ([time_delta = 0]), the distance appended equals the last stored
    distance, whatever the speed read, positive or not: exactly so in exact
    arithmetic; on binary64 for every finite speed and session time and
    every stored distance that is a number, as float equality [==] (the sum
    [-0.0 + 0.0] is [0.0]). *)
Theorem zero_time_delta_keeps_distance :
  (∀ (ir : IRSDK Qc) (self : IRacingTelemetry Qc) (n : nat) (dp : Qc),
     is_connected ir = true → aligned n self → (2 ≤ n)%nat →
     get_back 1 (time self) = Some (SessionTime ir) →
     get_back 1 (distance self) = Some dp →
     ∃ self', update ir self = Some self' ∧ get_back 1 (distance self') = Some dp) ∧
  (∀ (ir : IRSDK float) (self : IRacingTelemetry float) (n : nat) (dp : float),
     is_connected ir = true → aligned n self → (2 ≤ n)%nat →
     get_back 1 (time self) = Some (SessionTime ir) →
     get_back 1 (distance self) = Some dp →
     F64.is_finite (SessionTime ir) = true → F64.is_finite (Speed ir) = true →
     F64.is_nan dp = false →
     ∃ self' d', update ir self = Some self' ∧
       get_back 1 (distance self') = Some d' ∧ (d' =? dp)%float = true).
Proof.
  split.
  - intros ir self n dp Hc Hal Hn Htp Hdp. eexists.
    split; [apply (update_connected ir self n (SessionTime ir) dp); assumption|].
    simpl. rewrite get_back_snoc. f_equal.
    destruct (Exact.ltb _ _); [|reflexivity].
    unfold Qcminus. rewrite Qcplus_opp_r, Qcmult_0_r, Qcplus_0_r. reflexivity.
  - intros ir self n dp Hc Hal Hn Htp Hdp Hft Hfv Hnan. eexists _, _.
    split; [apply (update_connected ir self n (SessionTime ir) dp); assumption|].
    simpl. rewrite get_back_snoc. split; [reflexivity|].
    destruct (PrimFloat.ltb _ _).
    + rewrite (float_sub_diag _ Hft).
      destruct (float_mul_zero _ Hfv) as [s Hs]. apply (float_add_zero _ _ s Hs Hnan).
    + apply float_eqb_refl. exact Hnan.
Qed.

(** The tick of C10 on both carriers: after [driving] the last stored time is
    100.5 s and the last distance 5 m; 20 m/s is read at 100.5 s again. *)
Lemma zero_time_delta_witness :
  (∃ self', update (reading (of_Z 20) (lit 100.5)) (after (A:=Qc) driving) = Some self' ∧
     get_back 1 (distance self') = Some (of_Z 5)) ∧
  (∃ self' d', update (reading 20%float 100.5%float) (after driving) = Some self' ∧
     get_back 1 (distance self') = Some d' ∧ (d' =? 5)%float = true).
Proof.
  split.
  - refine (proj1 zero_time_delta_keeps_distance (reading (of_Z 20) (lit 100.5))
              (after driving) 200%nat (of_Z 5) _ _ _ _ _).
    + reflexivity.
    + repeat split; reflexivity.
    + lia.
    + vm_compute; reflexivity.
    + vm_compute; reflexivity.
  - refine (proj2 zero_time_delta_keeps_distance (reading 20%float 100.5%float)
              (after driving) 200%nat 5%float _ _ _ _ _ _ _ _).
    + reflexivity.
    + repeat split; reflexivity.
    + lia.
    + vm_compute; reflexivity.
    + vm_compute; reflexivity.
    + reflexivity.
    + reflexivity.
    + reflexivity.
Defined.

(** ** The redraw *)

Section RendererFacts.
Context {A : Type} `{Scalar A}.
Implicit Types (w : ApplicationWindow A) (t : IRacingTelemetry A).

(** On windows of a common length no plot raises, and the axes are
    determined: one line per checked box, in the order of the source. *)
Lemma draw_aligned w t (n : nat) (d : A) :
  aligned n t → get_back 1 (distance t) = Some d →
  draw w t = Some
    {| lines :=
         (if throttle_checkbox w
          then [{| xdata := distance t; ydata := throttle t; color := "lime" |}] else []) ++
         (if brake_checkbox w
          then [{| xdata := distance t; ydata := brake t; color := "red" |}] else []) ++
         (if steer_checkbox w
          then [{| xdata := distance t;
                   ydata := (λ v, mul (add v (of_Z 1)) (lit 0.5)) <$> steer t;
                   color := "cyan" |}] else []) ++
         (if speed_checkbox w
          then [{| xdata := distance t;
                   ydata := (λ v, div v (lit 83.33)) <$> speed t;
                   color := "yellow" |}] else []) ++
         (if gear_checkbox w
          then [{| xdata := distance t;
                   ydata := (λ v, div v (lit 6.0)) <$> gear t;
                   color := "magenta" |}] else []);
       xlim := if ltb (of_Z 150) d then (sub d (of_Z 150), add d (of_Z 150))
               else (of_Z 0, of_Z 300) |}.
Proof.
  intros (Hth & Hbr & Hst & Hsp & Hge & Hdi & Hti) Hd.
  unfold draw, plot_if, plot, x_limits, steer_normalized, speed_normalized,
    gear_normalized.
  rewrite !length_fmap, Hth, Hbr, Hst, Hsp, Hge, Hdi, Hd.
  destruct (decide (n = n)) as [_|]; [|done].
  destruct (throttle_checkbox w), (brake_checkbox w), (steer_checkbox w),
    (speed_checkbox w), (gear_checkbox w); simpl;
    destruct (ltb (of_Z 150) d); reflexivity.
Qed.

Lemma wf_last_distance t : wf t → ∃ d, get_back 1 (distance t) = Some d.
Proof.
  intros [_ Hal]. destruct (aligned_last 200 t Hal) as (_ & d & _ & Hd); [lia|].
  eauto.
Qed.

(** C9.  Two windows that hold the same sampler state and differ at most in
    their five checkboxes: the same tick succeeds on both and leaves the
    same sampler state (all seven windows), the one [update] alone
    computes. *)
Theorem toggles_do_not_influence_sampling (ir : IRSDK A) (w1 w2 : ApplicationWindow A) :
  telemetry w1 = telemetry w2 → wf (telemetry w1) →
  ∃ w1' ax1 w2' ax2,
    update_plot ir w1 = Some (w1', ax1) ∧ update_plot ir w2 = Some (w2', ax2) ∧
    telemetry w1' = telemetry w2' ∧
    update ir (telemetry w1) = Some (telemetry w1').
Proof.
  intros Heq Hwf. unfold update_plot. rewrite <- Heq.
  destruct (update_wf ir (telemetry w1) Hwf) as (t & -> & Hwf').
  destruct (wf_last_distance t Hwf') as [d Hd]. simpl.
  rewrite (draw_aligned w1 t 200 d (proj2 Hwf') Hd),
          (draw_aligned w2 t 200 d (proj2 Hwf') Hd).
  simpl. eexists _, _, _, _. repeat split; reflexivity.
Qed.

End RendererFacts.

(** The tick of C9 on binary64: all boxes checked against none checked. *)
Lemma toggles_witness :
  ∃ w1' ax1 w2' ax2,
    update_plot (reading 10%float 100%float) window_init = Some (w1', ax1) ∧
    update_plot (reading 10%float 100%float)
      {| telemetry := init; throttle_checkbox := false; brake_checkbox := false;
         steer_checkbox := false; speed_checkbox := false; gear_checkbox := false |}
      = Some (w2', ax2) ∧
    telemetry w1' = telemetry w2' ∧
    update (reading 10%float 100%float) (telemetry window_init) = Some (telemetry w1').
Proof.
  refine (toggles_do_not_influence_sampling (reading 10%float 100%float) window_init
            {| telemetry := init; throttle_checkbox := false; brake_checkbox := false;
               steer_checkbox := false; speed_checkbox := false;
               gear_checkbox := false |} _ _).
  - reflexivity.
  - repeat split; reflexivity.
Defined.

(** ** Presentation transforms and the x-axis *)

Lemma exact_of_Z_neg (g : Z) : g < 0 → (of_Z g < 0)%Qc.
Proof.
  intros Hg. unfold Qclt. simpl. rewrite Qred_correct. unfold Qlt. simpl. lia.
Qed.

Lemma exact_gear_negative (g : Z) :
  g < 0 → ∃ y : Qc, gear_normalized [of_Z g] = [y] ∧ (y < 0)%Qc.
Proof.
  intros Hg. eexists. split; [reflexivity|]. simpl.
  rewrite <- (Qcmult_0_l (/ Q2Qc 6.0)). unfold Qcdiv.
  apply Qcmult_lt_compat_r; [vm_compute; reflexivity | apply (exact_of_Z_neg g Hg)].
Qed.

Lemma float_gear_negative (g : Z) :
  -1000 ≤ g < 0 →
  ∃ y : float, gear_normalized [of_Z g] = [y] ∧ ltb y (of_Z 0) = true.
Proof.
  intros Hg. eexists. split; [reflexivity|]. simpl.
  assert (forallb (λ k : nat,
            PrimFloat.ltb (PrimFloat.div (F64.of_Z (- Z.of_nat (S k))) (F64.lit 6.0))
              (F64.of_Z 0)) (seq 0 1000) = true) as Hall by (vm_compute; reflexivity).
  rewrite forallb_forall in Hall. specialize (Hall (Z.to_nat (- g - 1))).
  replace (- Z.of_nat (S (Z.to_nat (- g - 1)))) with g in Hall by lia.
  apply Hall. apply in_seq. lia.
Qed.

(** C7.  What the redraw plots for each checked box, on windows of a common
    length: throttle and brake as they are, steer through [(v + 1) * 0.5],
    speed through [v / 83.33], gear through [v / 6.0], each against the
    distance window.  On binary64, steer -1 and 1 are drawn at exactly 0.0
    and 1.0, speed 83.33 at exactly 1.0 and every gear from -1000 to -1
    below 0; in exact arithmetic the same values come out and every negative
    gear is drawn below 0. *)
Theorem renderer_transforms :
  (∀ (A : Type) (S : Scalar A) (w : ApplicationWindow A) (t : IRacingTelemetry A)
     (n : nat) (d : A),
     aligned n t → get_back 1 (distance t) = Some d →
     ∃ ax, draw w t = Some ax ∧
       lines ax =
         (if throttle_checkbox w
          then [{| xdata := distance t; ydata := throttle t; color := "lime" |}] else []) ++
         (if brake_checkbox w
          then [{| xdata := distance t; ydata := brake t; color := "red" |}] else []) ++
         (if steer_checkbox w
          then [{| xdata := distance t;
                   ydata := (λ v, mul (add v (of_Z 1)) (lit 0.5)) <$> steer t;
                   color := "cyan" |}] else []) ++
         (if speed_checkbox w
          then [{| xdata := distance t;
                   ydata := (λ v, div v (lit 83.33)) <$> speed t;
                   color := "yellow" |}] else []) ++
         (if gear_checkbox w
          then [{| xdata := distance t;
                   ydata := (λ v, div v (lit 6.0)) <$> gear t;
                   color := "magenta" |}] else [])) ∧
  (steer_normalized [(-1)%float; 1%float] = [0%float; 1%float] ∧
   speed_normalized [83.33%float] = [1%float] ∧
   ∀ g : Z, -1000 ≤ g < 0 →
     ∃ y : float, gear_normalized [of_Z g] = [y] ∧ ltb y (of_Z 0) = true) ∧
  (steer_normalized [of_Z (-1); of_Z 1] = [of_Z 0; of_Z 1 : Qc] ∧
   speed_normalized [lit 83.33] = [of_Z 1 : Qc] ∧
   ∀ g : Z, g < 0 → ∃ y : Qc, gear_normalized [of_Z g] = [y] ∧ (y < 0)%Qc).
Proof.
  split; [|split].
  - intros A S w t n d Hal Hd. eexists. split; [apply (draw_aligned w t n d Hal Hd)|].
    reflexivity.
  - split; [vm_compute; reflexivity|]. split; [vm_compute; reflexivity|].
    exact float_gear_negative.
  - split; [|split].
    + unfold steer_normalized; simpl. repeat f_equal; apply Qc_is_canon; reflexivity.
    + unfold speed_normalized; simpl. repeat f_equal; apply Qc_is_canon; reflexivity.
    + exact exact_gear_negative.
Qed.

(** The redraw of C7 on binary64, all boxes checked, on the windows after
    [driving]; and reverse gear in exact arithmetic. *)
Lemma renderer_transforms_witness :
  (∃ ax, draw window_init (after (A:=float) driving) = Some ax ∧
     length (lines ax) = 5%nat ∧
     (ydata <$> lines ax) !! 2%nat =
       Some ((λ v, mul (add v (of_Z 1)) (lit 0.5)) <$> steer (after driving))) ∧
  (∃ y : Qc, gear_normalized [of_Z (-1)] = [y] ∧ (y < 0)%Qc).
Proof.
  split.
  - destruct (proj1 renderer_transforms float _ window_init (after driving) 200%nat
                5%float) as (ax & Hdraw & Hlines).
    + repeat split; reflexivity.
    + vm_compute; reflexivity.
    + exists ax. split; [exact Hdraw|]. rewrite Hlines. split; reflexivity.
  - refine (proj2 (proj2 (proj2 (proj2 renderer_transforms))) (-1) _). reflexivity.
Defined.

Section Limits.
Context {A : Type} `{ScalarOrder A}.

(** C8.  With [d] the last distance of the windows just sampled, the redraw
    sets the x-axis to [(0, 300)] when [d <= 150] and to
    [(d - 150, d + 150)] when [d > 150]. *)
Theorem x_axis_limits (w : ApplicationWindow A) (t : IRacingTelemetry A) (n : nat) (d : A) :
  aligned n t → get_back 1 (distance t) = Some d →
  ∃ ax, draw w t = Some ax ∧
    (leb d (of_Z 150) = true → xlim ax = (of_Z 0, of_Z 300)) ∧
    (ltb (of_Z 150) d = true → xlim ax = (sub d (of_Z 150), add d (of_Z 150))).
Proof.
  intros Hal Hd. eexists. split; [apply (draw_aligned w t n d Hal Hd)|]. simpl. split.
  - intros Hle. rewrite (leb_not_gt _ _ Hle). reflexivity.
  - intros ->. reflexivity.
Qed.

End Limits.

(** The scrolled window of C8 is 300 wide and centred on the last distance,
    in exact arithmetic. *)
Lemma exact_x_window_centred (d : Qc) :
  (add d (of_Z 150) - sub d (of_Z 150) = of_Z 300)%Qc ∧
  ((sub d (of_Z 150) + add d (of_Z 150)) / of_Z 2 = d)%Qc.
Proof.
  simpl.
  assert (Q2Qc (inject_Z 300) = Q2Qc (inject_Z 150) + Q2Qc (inject_Z 150))%Qc as ->
    by (apply Qc_is_canon; reflexivity).
  assert (Q2Qc (inject_Z 2) = 1 + 1)%Qc as -> by (apply Qc_is_canon; reflexivity).
  split; [ring | field]. discriminate.
Qed.

(** The redraw of C8 on binary64 when the last distance is 1000 m. *)
Lemma x_axis_limits_witness :
  ∃ ax, draw window_init (after [reading 10%float 100%float]) = Some ax ∧
    (leb 1000%float (of_Z 150) = true → xlim ax = (of_Z 0, of_Z 300)) ∧
    (ltb (of_Z 150) 1000%float = true →
       xlim ax = (sub 1000%float (of_Z 150), add 1000%float (of_Z 150))).
Proof.
  refine (x_axis_limits window_init (after [reading 10%float 100%float]) 200
            1000%float _ _).
  - repeat split; reflexivity.
  - vm_compute; reflexivity.
Defined.

(** ** C1 and C2 on a concrete run *)

(** The tick of C1 on binary64: the simulator goes away after [driving]. *)
Lemma update_disconnected_witness :
  ∃ self', update offline (after (A:=float) driving) = Some self' ∧
    throttle self' = replicate 200 (of_Z 0) ∧
    brake self' = replicate 200 (of_Z 0) ∧
    steer self' = replicate 200 (of_Z 0) ∧
    speed self' = replicate 200 (of_Z 0) ∧
    gear self' = replicate 200 (of_Z 0) ∧
    distance self' = replicate 200 (of_Z 0) ∧
    time self' = replicate 200 (of_Z 0).
Proof.
  refine (update_disconnected_resets offline (after driving) _ _); reflexivity.
Defined.

(** The tick of C2 on binary64: one more reading after [driving], whose
    last stored time is 100.5 and last stored distance 5; the reading has
    speed 20 at time 101, so the appended distance is 5 + 20 * 0.5 = 15. *)
Lemma update_connected_witness :
  ∃ tp dp self',
    get_back 1 (time (after driving)) = Some tp ∧
    get_back 1 (distance (after driving)) = Some dp ∧
    update (reading 20%float 101%float) (after driving) = Some self' ∧
    throttle self' = drop 1 (throttle (after driving)) ++ [lit 0.5] ∧
    brake self' = drop 1 (brake (after driving)) ++ [of_Z 0] ∧
    steer self' = drop 1 (steer (after driving)) ++ [lit 0.25] ∧
    speed self' = drop 1 (speed (after driving)) ++ [20%float] ∧
    gear self' = drop 1 (gear (after driving)) ++ [of_Z 3] ∧
    distance self' = drop 1 (distance (after driving)) ++
      [if decide (2 ≤ 200)%nat
       then if ltb (of_Z 0) 20%float
            then add dp (mul 20%float (sub 101%float tp)) else dp
       else dp] ∧
    time self' = drop 1 (time (after driving)) ++ [101%float] ∧
    aligned 200 self'.
Proof.
  refine (update_connected_fifo (reading 20%float 101%float) (after driving) 200 _ _ _).
  - reflexivity.
  - repeat split; reflexivity.
  - lia.
Defined.

(** * Further properties of the sampler and the redraw *)

(** ** Runs of ticks *)

Lemma drop_shifted {A : Type} (w rest : list A) (a : A) (k : nat) :
  w ≠ [] → drop k ((drop 1 w ++ [a]) ++ rest) = drop (S k) (w ++ a :: rest).
Proof.
  intros Hw. destruct w as [|x w]; [done|]. cbn [drop app]. rewrite drop_0.
  rewrite <- app_assoc. reflexivity.
Qed.

Section RunFacts.
Context {A : Type} `{Scalar A}.
Implicit Types (self : IRacingTelemetry A) (ir : IRSDK A).

Lemma ticks_app (irs1 irs2 : list (IRSDK A)) self :
  ticks (irs1 ++ irs2) self = ticks irs1 self ≫= ticks irs2.
Proof.
  revert self. induction irs1 as [|ir irs1 IH]; intros self; simpl; [reflexivity|].
  destruct (update ir self) as [s1|]; simpl; [apply IH | reflexivity].
Qed.

(** After any number of connected ticks, each sampled window holds the
    latest values: the old window followed by the values read, cut down from
    the front to the window's length.  (After 200 or more ticks nothing of
    the old window is left.) *)
Theorem windows_after_connected_ticks (irs : list (IRSDK A)) self (n : nat) :
  aligned n self → (2 ≤ n)%nat → Forall (λ ir, is_connected ir = true) irs →
  ∃ self', ticks irs self = Some self' ∧ aligned n self' ∧
    throttle self' = drop (length irs) (throttle self ++ (Throttle <$> irs)) ∧
    brake self' = drop (length irs) (brake self ++ (Brake <$> irs)) ∧
    steer self' = drop (length irs) (steer self ++ (Steer <$> irs)) ∧
    speed self' = drop (length irs) (speed self ++ (Speed <$> irs)) ∧
    gear self' = drop (length irs) (gear self ++ ((λ ir, of_Z (Gear ir)) <$> irs)) ∧
    time self' = drop (length irs) (time self ++ (SessionTime <$> irs)).
Proof.
  intros Hal Hn Hall. revert self Hal.
  induction Hall as [|ir irs Hc _ IH]; intros self Hal.
  - exists self. cbn [ticks length fmap list_fmap drop]. rewrite !app_nil_r. auto 10.
  - destruct (aligned_last n self Hal) as (tp & dp & Htp & Hdp); [lia|].
    pose proof (update_connected ir self n tp dp Hc Hal Hn Htp Hdp) as Hup.
    assert (∀ a : list A, length a = n → a ≠ []) as Hne
      by (intros a Ha; eapply length_pos_nonempty; [exact Ha | lia]).
    destruct Hal as (Hth & Hbr & Hst & Hsp & Hge & Hdi & Hti).
    match type of Hup with _ = Some ?s => set (s1 := s) in * end.
    assert (aligned n s1) as Hal1.
    { unfold aligned, s1; cbn. rewrite !length_drop_snoc by auto. tauto. }
    destruct (IH s1 Hal1) as (s' & Hrun & Hal' & E1 & E2 & E3 & E4 & E5 & E6).
    exists s'. cbn [ticks]. rewrite Hup. cbn [mbind option_bind].
    split; [exact Hrun|]. split; [exact Hal'|].
    unfold s1 in E1, E2, E3, E4, E5, E6. cbn in E1, E2, E3, E4, E5, E6.
    rewrite drop_shifted in E1, E2, E3, E4, E5, E6 by auto.
    cbn [length fmap list_fmap]. auto 10.
Qed.

(** A disconnected tick wipes the history: whatever was sampled before it
    has no influence on any later state. *)
Theorem disconnection_erases_history (before later : list (IRSDK A)) (off : IRSDK A) :
  is_connected off = false →
  ticks (before ++ off :: later) init = ticks later init.
Proof.
  intros Hoff. rewrite ticks_app.
  destruct (ticks_wf before init init_wf) as (s & -> & Hh & _).
  cbn [mbind option_bind ticks]. unfold update. rewrite Hoff. cbn [negb mbind option_bind].
  replace (reset_data s) with (init (A:=A)); [reflexivity|].
  unfold init, reset_data. cbn. rewrite Hh. reflexivity.
Qed.

End RunFacts.

(** The run of [windows_after_connected_ticks] on binary64: the two
    readings of [driving] after start-up. *)
Lemma windows_after_connected_ticks_witness :
  ∃ self' : IRacingTelemetry float, ticks driving init = Some self' ∧ aligned 200 self' ∧
    throttle self' = drop 2 (throttle init ++ (Throttle <$> driving)) ∧
    brake self' = drop 2 (brake init ++ (Brake <$> driving)) ∧
    steer self' = drop 2 (steer init ++ (Steer <$> driving)) ∧
    speed self' = drop 2 (speed init ++ (Speed <$> driving)) ∧
    gear self' = drop 2 (gear init ++ ((λ ir, of_Z (Gear ir)) <$> driving)) ∧
    time self' = drop 2 (time init ++ (SessionTime <$> driving)).
Proof.
  refine (windows_after_connected_ticks driving init 200 _ _ _).
  - repeat split; reflexivity.
  - lia.
  - repeat constructor.
Defined.

(** [disconnection_erases_history] on binary64: driving, a disconnection,
    then one reading. *)
Lemma disconnection_erases_history_witness :
  ticks (driving ++ offline :: [reading 10%float 100%float]) init =
  ticks [reading 10%float 100%float] init.
Proof.
  refine (disconnection_erases_history driving [reading 10%float 100%float] offline _).
  reflexivity.
Defined.

(** ** The distance window in every reachable state *)

Section WindowFacts.
Context {A : Type} `{ScalarOrder A}.

(** In every state reached from start-up, every pair of neighbouring
    samples obeys the distance step: with their two session times [t0],
    [t1], the later distance is the earlier one plus
    [speed * (t1 - t0)] when the later speed is [> 0], and equal to the
    earlier one when the later speed is [<= 0] (the distance is frozen). *)
Theorem neighbouring_samples_obey_distance_step
    (irs : list (IRSDK A)) (self : IRacingTelemetry A) (i : nat) (v d0 d1 : A) :
  ticks irs init = Some self →
  speed self !! S i = Some v →
  distance self !! i = Some d0 → distance self !! S i = Some d1 →
  ∃ t0 t1, time self !! i = Some t0 ∧ time self !! S i = Some t1 ∧
    (ltb (of_Z 0) v = true → d1 = add d0 (mul v (sub t1 t0))) ∧
    (leb v (of_Z 0) = true → d1 = d0).
Proof.
  intros Hrun Hv Hd0 Hd1.
  destruct (ticks_wf irs init init_wf) as (s & Hs & _ & Hal).
  rewrite Hrun in Hs. injection Hs as <-.
  destruct Hal as (_ & _ & _ & _ & _ & Hdi & Hti).
  pose proof (lookup_lt_Some _ _ _ Hd1) as Hlt. rewrite Hdi in Hlt.
  destruct (lookup_lt_is_Some_2 (time self) i) as [t0 Ht0]; [lia|].
  destruct (lookup_lt_is_Some_2 (time self) (S i)) as [t1 Ht1]; [lia|].
  exists t0, t1. split; [exact Ht0|]. split; [exact Ht1|].
  rewrite (reachable_recurrence irs self Hrun i v t0 t1 d0 d1 Hv Ht0 Ht1 Hd0 Hd1).
  split.
  - intros ->. reflexivity.
  - intros Hle. rewrite (leb_not_gt _ _ Hle). reflexivity.
Qed.

End WindowFacts.

(** The last two samples after [driving], on binary64. *)
Lemma neighbouring_samples_witness :
  ∃ t0 t1 : float,
    time (after driving) !! 198%nat = Some t0 ∧ time (after driving) !! 199%nat = Some t1 ∧
    (ltb (of_Z 0) 10%float = true → 5%float = add 0%float (mul 10%float (sub t1 t0))) ∧
    (leb 10%float (of_Z 0) = true → 5%float = 0%float).
Proof.
  refine (neighbouring_samples_obey_distance_step driving (after driving) 198
            10%float 0%float 5%float _ _ _ _); vm_compute; reflexivity.
Defined.

(** ** The distance is never negative, on binary64 *)

Lemma SFadd_nonneg (a b : spec_float) :
  SF_nonneg a = true → SF_nonneg b = true → SF_nonneg (SFadd prec emax a b) = true.
Proof.
  destruct a as [sa|[|]| |[|] ma ea]; try discriminate;
  destruct b as [sb|[|]| |[|] mb eb]; try discriminate; intros _ _; cbn [SFadd];
    try reflexivity.
  - destruct sa, sb; reflexivity.
  - cbn [cond_Zopp]. unfold binary_normalize.
    destruct (Zpos (fst (shl_align ma ea (Z.min ea eb))) +
              Zpos (fst (shl_align mb eb (Z.min ea eb)))) as [|p|p] eqn:EM; [lia| |lia].
    destruct (binary_round_sign false p (Z.min ea eb)) as [[s' ->]|[->|(m' & e' & ->)]];
      reflexivity.
Qed.

Lemma SF_nonneg_leb (x : spec_float) :
  SF_nonneg x = true → SFleb (S754_zero false) x = true.
Proof. destruct x as [s|[|]| |[|] m e]; try discriminate; reflexivity. Qed.

(** One step of lines 47-53 keeps the distance non-negative. *)
Lemma float_step_nonneg (dp v t tp : float) :
  SF_nonneg (Prim2SF dp) = true → F64.is_finite v = true →
  F64.is_finite t = true → F64.is_finite tp = true → PrimFloat.leb tp t = true →
  SF_nonneg (Prim2SF (if ltb (of_Z 0) v then add dp (mul v (sub t tp)) else dp)) = true.
Proof.
  unfold F64.is_finite. intros Hd Fv Ft Ftp Hle.
  destruct (ltb (of_Z 0) v) eqn:Hv; [|exact Hd].
  cbn [ltb add mul sub float_scalar] in *. rewrite ltb_spec in Hv. rewrite leb_spec in Hle.
  change (Prim2SF (of_Z 0)) with (S754_zero false) in Hv.
  rewrite add_spec, mul_spec, sub_spec. apply SFadd_nonneg; [exact Hd|].
  destruct (Prim2SF v) as [sv|sv| |[|] mv ev]; try discriminate.
  apply SFmul_nonneg. apply SFsub_nonneg; auto using Prim2SF_valid.
Qed.

Lemma distance_nonneg_from (irs : list (IRSDK float)) :
  ∀ (self : IRacingTelemetry float) (prev : float),
    wf self → get_back 1 (time self) = Some prev → F64.is_finite prev = true →
    Forall (λ d, SF_nonneg (Prim2SF d) = true) (distance self) → times_advance prev irs →
    ∃ self', ticks irs self = Some self' ∧
      Forall (λ d, SF_nonneg (Prim2SF d) = true) (distance self').
Proof.
  induction irs as [|ir irs IH]; intros self prev Hwf Hprev Fprev Hpos Hadv.
  - exists self. split; [reflexivity | exact Hpos].
  - cbn [times_advance] in Hadv. cbn [ticks].
    destruct (update_wf ir self Hwf) as (s1 & Hup & Hwf1).
    destruct (is_connected ir) eqn:Hc.
    + destruct Hadv as (Fv & Ft & Hle & Hadv).
      destruct (aligned_last 200 self (proj2 Hwf)) as (tp & dp & Htp & Hdp); [lia|].
      rewrite Hprev in Htp. injection Htp as <-.
      pose proof (update_connected ir self 200 prev dp Hc (proj2 Hwf) ltac:(lia) Hprev Hdp)
        as Hup'.
      rewrite Hup' in Hup |- *. injection Hup as <-. cbn [mbind option_bind].
      apply (IH _ (SessionTime ir));
        [exact Hwf1 | apply get_back_snoc | exact Ft | | exact Hadv].
      cbn [distance]. apply Forall_app. split; [apply Forall_drop; exact Hpos|].
      constructor; [|constructor]. apply float_step_nonneg; auto.
      destruct Hwf as [_ (_ & _ & _ & _ & _ & Hdi & _)].
      apply (get_back_1_lookup _ dp 200 Hdi) in Hdp.
      exact (proj1 (Forall_lookup _ _) Hpos _ _ Hdp).
    + unfold update in Hup |- *. rewrite Hc in Hup |- *. cbn [negb] in Hup |- *.
      injection Hup as <-. cbn [mbind option_bind].
      apply (IH _ (of_Z 0)); [exact Hwf1 | | reflexivity | | exact Hadv].
      * unfold reset_data; cbn [time]. rewrite (proj1 Hwf). reflexivity.
      * unfold reset_data, zeros; cbn [distance]. apply Forall_replicate. reflexivity.
Qed.

(** On binary64, with rounding and overflow: as long as every connected
    reading has a finite speed and a finite session time, and the session
    time never runs backwards between connected ticks (and is not negative
    at the first tick after start-up or after a disconnection), every tick
    succeeds and no distance in the window is ever negative or NaN:
    [0 <= d] holds for each of them. *)
Theorem distance_never_negative (irs : list (IRSDK float)) :
  times_advance (of_Z 0) irs →
  ∃ self, ticks irs init = Some self ∧
    Forall (λ d, PrimFloat.leb (of_Z 0) d = true) (distance self).
Proof.
  intros Hadv.
  destruct (distance_nonneg_from irs init (of_Z 0)) as (self & Hrun & Hpos).
  - apply init_wf.
  - reflexivity.
  - reflexivity.
  - unfold init, reset_data, zeros; cbn [distance]. apply Forall_replicate. reflexivity.
  - exact Hadv.
  - exists self. split; [exact Hrun|].
    eapply List.Forall_impl; [|exact Hpos]. intros d Hd. cbv beta in Hd.
    rewrite leb_spec. apply SF_nonneg_leb. exact Hd.
Qed.

(** The run [driving] on binary64. *)
Lemma distance_never_negative_witness :
  ∃ self : IRacingTelemetry float,
    ticks driving init = Some self ∧
    Forall (λ d, PrimFloat.leb (of_Z 0) d = true) (distance self).
Proof.
  refine (distance_never_negative driving _).
  cbn. repeat split; vm_compute; reflexivity.
Defined.

(** ** The visible range, on binary64 *)





(** ** The normalised channels, on binary64 *)

(** *** Rounding a value that is at most 1 *)

(** [shr] from any location: the mantissa is divided by [2^n]; the result
    is marked inexact only if the start was, or a non-zero bit is lost. *)
Lemma shr_loc_spec (M e n : Z) (l : location) :
  0 ≤ M →
  ∃ mrs, shr (shr_record_of_loc M l) e n = (mrs, e + Z.max n 0) ∧
    shr_m mrs = M / 2 ^ Z.max n 0 ∧
    (orb (shr_r mrs) (shr_s mrs) = true → l ≠ loc_Exact ∨ ¬ (2 ^ Z.max n 0 | M)).
Proof.
  intros HM. destruct l as [|c].
  - cbn [shr_record_of_loc]. destruct (shr_exact_spec M e n HM) as (mrs & H1 & H2 & H3).
    exists mrs. split; [exact H1|]. split; [exact H2|]. intros Hor. right. auto.
  - assert (shr_m (shr_record_of_loc M (loc_Inexact c)) = M) as H0
      by (destruct c; reflexivity).
    unfold shr. destruct n as [|p|p].
    + eexists. split; [f_equal; lia|]. split; [|intros _; left; discriminate].
      rewrite H0. simpl. rewrite Z.div_1_r. reflexivity.
    + eexists. split; [reflexivity|]. split; [|intros _; left; discriminate].
      pose proof (iter_pos_inv shr_1 (λ k x, shr_m x = M / 2 ^ Z.of_nat k)) as Hit.
      cbv beta in Hit.
      rewrite <- (positive_nat_Z p). replace (Z.max (Z.of_nat (Pos.to_nat p)) 0)
        with (Z.of_nat (0 + Pos.to_nat p)) by lia.
      apply Hit.
      * intros k x Hx.
        assert (0 < 2 ^ Z.of_nat k) as Hp by (apply pow_pos_lt; lia).
        assert (0 ≤ shr_m x) as Hx0 by (rewrite Hx; apply Z.div_pos; lia).
        rewrite (shr_1_m x Hx0), Hx, Nat2Z.inj_succ, Z.pow_succ_r, Z.div_div by lia.
        f_equal. lia.
      * rewrite H0. simpl. rewrite Z.div_1_r. reflexivity.
    + eexists. split; [f_equal; lia|]. split; [|intros _; left; discriminate].
      rewrite H0. simpl. rewrite Z.div_1_r. reflexivity.
Qed.

(** A mantissa of at most 53 bits, or [2^53], at an exponent not below
    [emin64] is brought to its canonical exponent without loss. *)
Lemma shr_fexp_fit (t g : Z) :
  emin64 ≤ g → 0 ≤ t ≤ 2 ^ 53 →
  ∃ mrs e2, shr_fexp prec emax t g loc_Exact = (mrs, e2) ∧
    0 ≤ shr_m mrs ∧ g ≤ e2 ≤ g + 1 ∧
    shr_m mrs * 2 ^ (e2 - emin64) = t * 2 ^ (g - emin64).
Proof.
  intros Hg [Ht0 Ht]. unfold shr_fexp. rewrite fexp64. cbn [shr_record_of_loc].
  destruct t as [|p|p]; [| |lia].
  - cbn [Zdigits2]. unfold shr.
    destruct (Z.max (0 + g - 53) emin64 - g) as [|k|k] eqn:E; [|lia|];
      eexists _, _; (split; [reflexivity|]); cbn [shr_m]; lia.
  - cbn [Zdigits2]. fold (digits p).
    destruct (Z.eq_dec (Zpos p) (2 ^ 53)) as [Hc|Hn].
    + assert (digits p = 54) as Hd
        by (apply digits_unique; rewrite Hc; split; [vm_compute; discriminate | reflexivity]).
      rewrite Hd. replace (Z.max (54 + g - 53) emin64 - g) with 1 by lia.
      change (2 ^ 53) with 9007199254740992 in Hc. rewrite Hc.
      cbn [shr SpecFloat.iter_pos shr_1 shr_m].
      eexists _, _. split; [reflexivity|]. cbn [shr_m]. split; [lia|]. split; [lia|].
      replace (g + 1 - emin64) with (1 + (g - emin64)) by lia.
      rewrite Z.pow_add_r by lia. change (2 ^ 1) with 2. lia.
    + assert (digits p ≤ 53) as Hd.
      { pose proof (digits_bounds p) as [Blo _]. pose proof (digits_pos p).
        assert (2 ^ (digits p - 1) < 2 ^ 53) as Hlt by lia.
        apply Z.pow_lt_mono_r_iff in Hlt; lia. }
      unfold shr. destruct (Z.max (digits p + g - 53) emin64 - g) as [|k|k] eqn:E; [|lia|];
        eexists _, _; (split; [reflexivity|]); cbn [shr_m]; lia.
Qed.

Lemma Zdigits2_le (mz k : Z) : 0 ≤ k → 0 ≤ mz ≤ 2 ^ k → 0 ≤ Zdigits2 mz ≤ k + 1.
Proof.
  intros Hk [H0 Hle]. destruct mz as [|p|p]; [simpl; lia| |lia].
  cbn [Zdigits2]. fold (digits p). pose proof (digits_bounds p) as [Blo _].
  pose proof (digits_pos p).
  assert (2 ^ (digits p - 1) < 2 ^ (k + 1)) as Hlt.
  { eapply Z.le_lt_trans; [exact Blo|]. eapply Z.le_lt_trans; [exact Hle|].
    apply Z.pow_lt_mono_r; lia. }
  apply Z.pow_lt_mono_r_iff in Hlt; lia.
Qed.

Lemma div_lt_pow_digits (mz D : Z) :
  0 ≤ mz → 0 ≤ D → Zdigits2 mz - 53 ≤ D → mz / 2 ^ D < 2 ^ 53.
Proof.
  intros H0 HD Hd. pose proof (pow_pos_lt D HD) as Hp.
  apply Z.div_lt_upper_bound; [lia|].
  destruct mz as [|p|p]; [lia| |lia].
  cbn [Zdigits2] in Hd. fold (digits p) in Hd. pose proof (digits_bounds p) as [_ Bhi].
  pose proof (digits_pos p).
  eapply Z.lt_le_trans; [exact Bhi|]. rewrite <- Z.pow_add_r by lia.
  apply Z.pow_le_mono_r; lia.
Qed.

Lemma shr_fexp_loc (mz e : Z) (l : location) :
  let D := Z.max (Z.max (Zdigits2 mz + e - 53) emin64 - e) 0 in
  0 ≤ mz →
  ∃ mrs, shr_fexp prec emax mz e l = (mrs, e + D) ∧
    shr_m mrs = mz / 2 ^ D ∧
    (orb (shr_r mrs) (shr_s mrs) = true → l ≠ loc_Exact ∨ ¬ (2 ^ D | mz)).
Proof.
  intros D Hmz. unfold shr_fexp. rewrite fexp64. apply shr_loc_spec. exact Hmz.
Qed.

(** Rounding a mantissa and a location that stand for a value of at most 1
    gives a number of at most 1, of the same sign. *)
Lemma binary_round_aux_le_one (s : bool) (mz e : Z) (l : location) :
  0 ≤ mz → e ≤ 0 → mz ≤ 2 ^ (- e) → (l ≠ loc_Exact → mz < 2 ^ (- e)) →
  binary_round_aux prec emax s mz e l = S754_zero s ∨
  ∃ (m'' : positive) (e'' : Z),
    binary_round_aux prec emax s mz e l = S754_finite s m'' e'' ∧
    emin64 ≤ e'' ∧ Zpos m'' * 2 ^ (e'' - emin64) ≤ 2 ^ (- emin64).
Proof.
  intros Hmz He Hle Hlt. unfold binary_round_aux.
  destruct (shr_fexp_loc mz e l Hmz) as (mrs & -> & Hm & Hinex). cbv zeta in *.
  pose proof (Zdigits2_le mz (- e) ltac:(lia) ltac:(lia)) as Hdg.
  set (D := Z.max (Z.max (Zdigits2 mz + e - 53) emin64 - e) 0) in *.
  set (g := e + D) in *.
  assert (emin64 ≤ g) as Hg1 by (unfold g, D; lia).
  assert (g ≤ 0) as Hg2 by (unfold g, D, emin64; lia).
  assert (0 ≤ D) as HD by (unfold D; lia).
  pose proof (pow_pos_lt D HD) as HpD.
  pose proof (pow_pos_lt (- g) ltac:(lia)) as Hpg.
  assert (2 ^ (- e) = 2 ^ (- g) * 2 ^ D) as Esplit
    by (rewrite <- Z.pow_add_r by lia; f_equal; unfold g; lia).
  pose proof (round_nearest_even_spec mrs) as [HT Hne]. cbv zeta in HT, Hne.
  set (T' := round_nearest_even (shr_m mrs) (loc_of_shr_record mrs)) in *.
  rewrite Hm in HT, Hne.
  assert (0 ≤ mz / 2 ^ D) as HT0 by (apply Z.div_pos; lia).
  assert (mz / 2 ^ D < 2 ^ 53) as HT53
    by (apply div_lt_pow_digits; [lia | lia | unfold D; lia]).
  assert (mz / 2 ^ D ≤ 2 ^ (- g)) as HTg
    by (apply Z.div_le_upper_bound; [lia | rewrite Z.mul_comm, <- Esplit; exact Hle]).
  assert (T' ≤ 2 ^ (- g)) as HT'g.
  { destruct (Z.eq_dec T' (mz / 2 ^ D)) as [->|Hneq]; [exact HTg|].
    destruct (Z.eq_dec (mz / 2 ^ D) (2 ^ (- g))) as [Heq|Hlt']; [|lia].
    exfalso. pose proof (Z.mul_div_le mz (2 ^ D) HpD) as Hfl. rewrite Heq in Hfl.
    assert (mz = 2 ^ (- e)) as Emz by lia.
    destruct (Hinex (Hne Hneq)) as [Hl|Hdiv].
    - specialize (Hlt Hl). lia.
    - apply Hdiv. exists (2 ^ (- g)). lia. }
  destruct (shr_fexp_fit T' g Hg1 ltac:(lia)) as (mrs2 & e2 & -> & Hm2 & He2 & Hval).
  assert (shr_m mrs2 * 2 ^ (e2 - emin64) ≤ 2 ^ (- emin64)) as Hbound.
  { rewrite Hval. replace (- emin64) with (- g + (g - emin64)) by lia.
    rewrite Z.pow_add_r by lia. apply Z.mul_le_mono_nonneg_r; [|exact HT'g].
    apply Z.lt_le_incl, pow_pos_lt. lia. }
  destruct (shr_m mrs2) as [|m''|m'']; [left; reflexivity| |lia].
  right. change (emax - prec) with 971.
  destruct (Z.leb_spec e2 971) as [_|Hbig]; [|lia].
  exists m'', e2. split; [reflexivity|]. split; [lia | exact Hbound].
Qed.

(** *** Quotients of at most 1 *)

Lemma new_location_exact (n r : Z) : new_location n r ≠ loc_Exact → r ≠ 0.
Proof.
  intros Hl ->. apply Hl. unfold new_location, new_location_even, new_location_odd.
  destruct (Z.even n); reflexivity.
Qed.

(** [x / y <= 1] for positive [x <= y]. *)
Lemma SFdiv_le_one (mx my : positive) (ex ey : Z) :
  emin64 ≤ ex → emin64 ≤ ey →
  Zpos mx * 2 ^ (ex - emin64) ≤ Zpos my * 2 ^ (ey - emin64) →
  SFdiv prec emax (S754_finite false mx ex) (S754_finite false my ey) = S754_zero false ∨
  ∃ (m'' : positive) (e'' : Z),
    SFdiv prec emax (S754_finite false mx ex) (S754_finite false my ey) =
      S754_finite false m'' e'' ∧
    emin64 ≤ e'' ∧ Zpos m'' * 2 ^ (e'' - emin64) ≤ 2 ^ (- emin64).
Proof.
  intros Hex Hey Hle. cbn [SFdiv xorb]. unfold SFdiv_core_binary. cbn [Zdigits2].
  fold (digits mx). fold (digits my). rewrite fexp64.
  set (e' := Z.min (Z.max (digits mx + ex - (digits my + ey) - 53) emin64) (ex - ey)).
  set (s := ex - ey - e').
  pose proof (digits_bounds mx) as [Bx _]. pose proof (digits_bounds my) as [_ By].
  pose proof (digits_pos mx). pose proof (digits_pos my).
  pose proof (pow_pos_lt (ex - emin64) ltac:(lia)) as Hpx.
  pose proof (pow_pos_lt (ey - emin64) ltac:(lia)) as Hpy.
  assert (digits mx + ex ≤ digits my + ey) as Hmag.
  { assert (2 ^ (digits mx - 1 + (ex - emin64)) < 2 ^ (digits my + (ey - emin64))) as Hlt.
    { rewrite !Z.pow_add_r by lia.
      eapply Z.le_lt_trans; [apply Z.mul_le_mono_nonneg_r; [lia | exact Bx]|].
      eapply Z.le_lt_trans; [exact Hle|]. apply Z.mul_lt_mono_pos_r; lia. }
    apply Z.pow_lt_mono_r_iff in Hlt; lia. }
  assert (e' ≤ 0) as He' by (unfold e', emin64; lia).
  assert (0 ≤ s) as Hs by (unfold s, e'; lia).
  set (m' := match s with Z.pos _ => Z.shiftl (Z.pos mx) s | 0 => Z.pos mx | Z.neg _ => 0 end).
  assert (m' = Zpos mx * 2 ^ s) as Em'.
  { unfold m'. destruct s as [|k|k] eqn:Es; [simpl; lia | | lia].
    apply Z.shiftl_mul_pow2. lia. }
  pose proof (pow_pos_lt s Hs) as Hps. pose proof (pow_pos_lt (- e') ltac:(lia)) as Hpe.
  assert (m' ≤ Zpos my * 2 ^ (- e')) as Hm'.
  { rewrite Em'.
    assert (Zpos mx * 2 ^ s * 2 ^ (ey - emin64) ≤ Zpos my * 2 ^ (- e') * 2 ^ (ey - emin64)).
    { rewrite <- !Z.mul_assoc, <- !Z.pow_add_r by lia.
      replace (s + (ey - emin64)) with ((ex - emin64) + - e') by (unfold s; lia).
      replace (- e' + (ey - emin64)) with ((ey - emin64) + - e') by lia.
      rewrite !Z.pow_add_r by lia. rewrite !Z.mul_assoc.
      apply Z.mul_le_mono_nonneg_r; lia. }
    apply Z.mul_le_mono_pos_r in H1; lia. }
  pose proof (Z_div_mod m' (Zpos my) ltac:(lia)) as Hdiv.
  destruct (Z.div_eucl m' (Zpos my)) as [q r]. destruct Hdiv as [Eq Hr].
  assert (0 ≤ q) as Hq by nia.
  apply binary_round_aux_le_one; [exact Hq | exact He' | nia |].
  intros Hl%new_location_exact. nia.
Qed.

(** *** The three normalisations on binary64 *)

Lemma SF_unit_leb (r : spec_float) :
  valid_binary r = true →
  ((∃ s, r = S754_zero s) ∨
   ∃ (m : positive) (e : Z), r = S754_finite false m e ∧
     emin64 ≤ e ∧ Zpos m * 2 ^ (e - emin64) ≤ 2 ^ (- emin64)) →
  SFleb (S754_zero false) r = true ∧ SFleb r (Prim2SF 1) = true.
Proof.
  intros Vr [[s ->]|(m & e & -> & He & Hle)]; [destruct s; split; reflexivity|].
  split; [reflexivity|].
  apply SFleb_scaled; [exact Vr | apply Prim2SF_valid | reflexivity | reflexivity |].
  change (Prim2SF 1) with (S754_finite false 4503599627370496 (-52)).
  cbn [scaled cond_Zopp].
  replace (4503599627370496 * 2 ^ (-52 - emin64)) with (2 ^ (- emin64))
    by (vm_compute; reflexivity).
  exact Hle.
Qed.

(** [0 <= v / c <= 1] for [0 <= v <= c] and a positive finite [c]. *)
Lemma float_div_unit (v c : float) (mc : positive) (ec : Z) :
  Prim2SF c = S754_finite false mc ec →
  PrimFloat.leb 0 v = true → PrimFloat.leb v c = true →
  PrimFloat.leb 0 (v / c) = true ∧ PrimFloat.leb (v / c) 1 = true.
Proof.
  intros Ec H0 Hc. rewrite leb_spec in H0, Hc. rewrite !leb_spec.
  pose proof (Prim2SF_valid v) as Vv. pose proof (Prim2SF_valid c) as Vc.
  pose proof (Prim2SF_valid (v / c)) as Vr. rewrite div_spec in *.
  change (Prim2SF 0) with (S754_zero false) in *. rewrite Ec in *.
  apply SF_unit_leb; [exact Vr|].
  destruct (Prim2SF v) as [sv|[|]| |[|] mv ev]; try discriminate.
  - left. eexists. reflexivity.
  - unfold SF64div.
    apply (SFleb_scaled _ _ Vv Vc eq_refl eq_refl) in Hc.
    destruct (SFdiv_le_one mv mc ev ec (valid_emin _ _ _ Vv) (valid_emin _ _ _ Vc) Hc)
      as [->|Hfin]; [left; eauto | right; exact Hfin].
Qed.

(** [0 <= (v + 1) * 0.5 <= 1] for [-1 <= v <= 1]. *)
Lemma float_steer_unit (v : float) :
  PrimFloat.leb (of_Z (-1)) v = true → PrimFloat.leb v (of_Z 1) = true →
  PrimFloat.leb 0 ((v + of_Z 1) * lit 0.5) = true ∧
  PrimFloat.leb ((v + of_Z 1) * lit 0.5) 1 = true.
Proof.
  intros Hlo Hhi. rewrite leb_spec in Hlo, Hhi. rewrite !leb_spec.
  pose proof (Prim2SF_valid v) as Vv.
  pose proof (Prim2SF_valid (of_Z 1)) as V1.
  pose proof (Prim2SF_valid (of_Z (-1))) as Vm1.
  pose proof (Prim2SF_valid (v + of_Z 1)) as Va.
  pose proof (Prim2SF_valid ((v + of_Z 1) * lit 0.5)) as Vr.
  rewrite mul_spec, add_spec in *.
  change (Prim2SF 0) with (S754_zero false).
  change (Prim2SF (of_Z 1)) with (S754_finite false 4503599627370496 (-52)) in *.
  change (Prim2SF (of_Z (-1))) with (S754_finite true 4503599627370496 (-52)) in *.
  change (Prim2SF (lit 0.5)) with (S754_finite false 4503599627370496 (-53)) in *.
  unfold SF64mul, SF64add in *.
  apply SF_unit_leb; [exact Vr|]. clear Vr.
  destruct (Prim2SF v) as [sv|[|]| |sv mv ev]; try discriminate.
  - (* v is a zero: (0 + 1) * 0.5 = 0.5 *)
    right. exists 4503599627370496%positive, (-53).
    split; [destruct sv; vm_compute; reflexivity|]. split; vm_compute; discriminate.
  - apply (SFleb_scaled _ _ Vm1 Vv eq_refl eq_refl) in Hlo.
    apply (SFleb_scaled _ _ Vv V1 eq_refl eq_refl) in Hhi.
    pose proof (valid_emin _ _ _ Vv) as Hev.
    cbn [SFadd] in *. set (ez := Z.min ev (-52)) in *.
    pose proof (shl_align_scaled sv mv ev ez ltac:(unfold ez, emin64 in *; lia) ltac:(lia)) as Ha.
    pose proof (shl_align_scaled false 4503599627370496 (-52) ez
                  ltac:(unfold ez, emin64 in *; lia) ltac:(lia)) as Hb.
    pose proof (pow_pos_lt (ez - emin64) ltac:(unfold ez, emin64 in *; lia)) as Hp.
    set (A := cond_Zopp sv (Zpos (fst (shl_align mv ev ez)))) in *.
    set (B := cond_Zopp false (Zpos (fst (shl_align 4503599627370496 (-52) ez)))) in *.
    assert (scaled (S754_finite false 4503599627370496 (-52)) = 2 ^ (- emin64)) as E1
      by (vm_compute; reflexivity).
    assert (scaled (S754_finite true 4503599627370496 (-52)) = - 2 ^ (- emin64)) as Em1
      by (vm_compute; reflexivity).
    rewrite E1 in *. rewrite Em1 in *.
    pose proof (pow_pos_lt (- emin64) ltac:(unfold emin64; lia)) as Hp1.
    unfold binary_normalize in *. destruct (A + B) as [|p|p] eqn:EM.
    + left. exists false. reflexivity.
    + assert (Zpos p * 2 ^ (ez - emin64) ≤ 4503599627370496 * 2 ^ (-51 - emin64)) as HV.
      { replace (4503599627370496 * 2 ^ (-51 - emin64)) with (2 * 2 ^ (- emin64))
          by (vm_compute; reflexivity). nia. }
      destruct (round_le false p 4503599627370496 ez (-51)
                  ltac:(unfold ez, emin64 in *; lia) ltac:(reflexivity) ltac:(lia) HV)
        as (m'' & e'' & Hr & HR).
      rewrite Hr in *. pose proof (valid_emin _ _ _ Va) as He''.
      replace (4503599627370496 * 2 ^ (-51 - emin64)) with (2 ^ (1 - emin64)) in HR
        by (vm_compute; reflexivity).
      pose proof (pow_pos_lt (e'' - emin64) ltac:(lia)) as Hpe.
      assert (e'' ≤ 1) as He1.
      { assert (2 ^ (e'' - emin64) < 2 ^ (2 - emin64)) as Hlt.
        { eapply Z.le_lt_trans; [|apply Z.pow_lt_mono_r with (b := 1 - emin64); unfold emin64 in *; lia].
          eapply Z.le_trans; [|exact HR]. nia. }
        apply Z.pow_lt_mono_r_iff in Hlt; unfold emin64 in *; lia. }
      cbn [SFmul xorb].
      assert (Zpos (m'' * 4503599627370496) ≤ 2 ^ (- (e'' + -53))) as Hmz; [|
        destruct (binary_round_aux_le_one false (Zpos (m'' * 4503599627370496)) (e'' + -53)
                    loc_Exact ltac:(lia) ltac:(lia) Hmz ltac:(congruence))
          as [->|Hfin]; [left; eauto | right; exact Hfin]].
      replace (- (e'' + -53)) with (52 + (1 - e'')) by lia.
      rewrite Z.pow_add_r by lia. rewrite Pos2Z.inj_mul.
      change (Zpos 4503599627370496) with (2 ^ 52). rewrite Z.mul_comm.
      apply Z.mul_le_mono_nonneg_l; [lia|].
      replace (1 - emin64) with ((1 - e'') + (e'' - emin64)) in HR by lia.
      rewrite Z.pow_add_r in HR by lia.
      apply Z.mul_le_mono_pos_r in HR; lia.
    + exfalso. nia.
Qed.

(** On binary64, with rounding: the three normalisations map the ranges
    their comments assume into [[0, 1]]: steering values in [[-1, 1]]
    through [(v + 1) * 0.5], speeds in [[0, 83.33]] through [v / 83.33], and
    gears in [[0, 6]] through [v / 6.0]. *)
Theorem normalized_channels_within_unit_range (steer speed gear : list float) :
  Forall (λ v, PrimFloat.leb (of_Z (-1)) v = true ∧ PrimFloat.leb v (of_Z 1) = true) steer →
  Forall (λ v, PrimFloat.leb (of_Z 0) v = true ∧ PrimFloat.leb v (lit 83.33) = true) speed →
  Forall (λ v, PrimFloat.leb (of_Z 0) v = true ∧ PrimFloat.leb v (lit 6.0) = true) gear →
  Forall (λ y, PrimFloat.leb (of_Z 0) y = true ∧ PrimFloat.leb y (of_Z 1) = true)
    (steer_normalized steer) ∧
  Forall (λ y, PrimFloat.leb (of_Z 0) y = true ∧ PrimFloat.leb y (of_Z 1) = true)
    (speed_normalized speed) ∧
  Forall (λ y, PrimFloat.leb (of_Z 0) y = true ∧ PrimFloat.leb y (of_Z 1) = true)
    (gear_normalized gear).
Proof.
  intros Hst Hsp Hge. unfold steer_normalized, speed_normalized, gear_normalized.
  split; [|split]; apply Forall_fmap.
  - eapply List.Forall_impl; [|exact Hst]. clear. intros v [Hlo Hhi]. cbn [compose].
    apply float_steer_unit; assumption.
  - eapply List.Forall_impl; [|exact Hsp]. clear. intros v [Hlo Hhi]. cbn [compose].
    apply (float_div_unit v (lit 83.33) 5863827452324741 (-46)); [reflexivity | assumption..].
  - eapply List.Forall_impl; [|exact Hge]. clear. intros v [Hlo Hhi]. cbn [compose].
    apply (float_div_unit v (lit 6.0) 6755399441055744 (-50)); [reflexivity | assumption..].
Qed.

(** Full left lock and full right lock, standstill and 83.33 m/s, neutral
    and sixth gear. *)
Lemma normalized_channels_witness :
  Forall (λ y, PrimFloat.leb (of_Z 0) y = true ∧ PrimFloat.leb y (of_Z 1) = true)
    (steer_normalized [of_Z (-1); of_Z 1]) ∧
  Forall (λ y, PrimFloat.leb (of_Z 0) y = true ∧ PrimFloat.leb y (of_Z 1) = true)
    (speed_normalized [of_Z 0; lit 83.33]) ∧
  Forall (λ y, PrimFloat.leb (of_Z 0) y = true ∧ PrimFloat.leb y (of_Z 1) = true)
    (gear_normalized [of_Z 0; of_Z 6]).
Proof.
  refine (normalized_channels_within_unit_range [of_Z (-1); of_Z 1] [of_Z 0; lit 83.33]
            [of_Z 0; of_Z 6] _ _ _);
    repeat constructor; vm_compute; reflexivity.
Defined.

(** ** Many ticks of the redraw *)

Section PlotRuns.
Context {A : Type} `{Scalar A}.



End PlotRuns.

(** * Dragging and resizing the window *)

(** ** Which edge a position grabs *)

Lemma get_resize_edge_None_iff (self : Chrome) (pos : QPoint) :
  get_resize_edge self pos = None ↔ interior self pos.
Proof.
  unfold get_resize_edge, interior.
  destruct (Z.leb_spec (qx pos) (resize_margin self));
    [|destruct (Z.leb_spec (win_width self - resize_margin self) (qx pos));
      [|destruct (Z.leb_spec (qy pos) (resize_margin self));
        [|destruct (Z.leb_spec (win_height self - resize_margin self) (qy pos))]]];
    split; intros; try discriminate; try reflexivity; lia.
Qed.

Lemma get_resize_edge_right (self : Chrome) (pos : QPoint) :
  resize_margin self < qx pos → win_width self - resize_margin self ≤ qx pos →
  get_resize_edge self pos = Some EdgeRight.
Proof.
  intros H1 H2. unfold get_resize_edge.
  destruct (Z.leb_spec (qx pos) (resize_margin self)); [lia|].
  destruct (Z.leb_spec (win_width self - resize_margin self) (qx pos)); [reflexivity | lia].
Qed.

(** [get_resize_edge] sorts positions by the left and right margins first:
    the four corners belong to the left and right edges, top and bottom are
    grabbed only strictly between them, and no edge is grabbed exactly at
    the positions strictly inside the margin on all sides. *)
Theorem get_resize_edge_classifies (self : Chrome) (pos : QPoint) :
  (get_resize_edge self pos = Some EdgeLeft ↔ qx pos ≤ resize_margin self) ∧
  (get_resize_edge self pos = Some EdgeRight ↔
     resize_margin self < qx pos ∧ win_width self - resize_margin self ≤ qx pos) ∧
  (get_resize_edge self pos = Some EdgeTop ↔
     resize_margin self < qx pos < win_width self - resize_margin self ∧
     qy pos ≤ resize_margin self) ∧
  (get_resize_edge self pos = Some EdgeBottom ↔
     resize_margin self < qx pos < win_width self - resize_margin self ∧
     resize_margin self < qy pos ∧ win_height self - resize_margin self ≤ qy pos) ∧
  (get_resize_edge self pos = None ↔ interior self pos).
Proof.
  unfold get_resize_edge, interior.
  destruct (Z.leb_spec (qx pos) (resize_margin self));
    [|destruct (Z.leb_spec (win_width self - resize_margin self) (qx pos));
      [|destruct (Z.leb_spec (qy pos) (resize_margin self));
        [|destruct (Z.leb_spec (win_height self - resize_margin self) (qy pos))]]];
    repeat split; intros; try discriminate; try reflexivity; lia.
Qed.

(** ** Dragging *)

Lemma handle_all_snoc (self : Chrome) (l : list MouseAction) (a : MouseAction) :
  handle_all self (l ++ [a]) = handle (handle_all self l) a.
Proof. unfold handle_all. apply foldl_snoc. Qed.

Lemma drag_moves (self : Chrome) (events : list QMouseEvent) :
  dragging self = true →
  let self' := handle_all self (Move <$> events) in
  dragging self' = true ∧ drag_position self' = drag_position self ∧
  win_width self' = win_width self ∧ win_height self' = win_height self ∧
  ∀ e, list.last events = Some e →
    win_x self' = qx (ev_globalPos e) - qx (drag_position self) ∧
    win_y self' = qy (ev_globalPos e) - qy (drag_position self).
Proof.
  intros Hd. induction events as [|e events IH] using rev_ind; cbn zeta in *.
  - unfold handle_all; cbn [fmap list_fmap foldl].
    split; [exact Hd|]. repeat (split; [reflexivity|]). intros e He. discriminate He.
  - rewrite fmap_app. change (Move <$> [e]) with [Move e].
    rewrite handle_all_snoc. cbn [handle].
    destruct IH as (Hd' & Hp & Hw & Hh & _).
    unfold mouseMoveEvent. rewrite Hd'. cbn. rewrite Hp.
    split; [exact Hd'|]. split; [reflexivity|]. split; [exact Hw|]. split; [exact Hh|].
    intros e' He'. rewrite last_snoc in He'. injection He' as <-. split; reflexivity.
Qed.

(** Pressing the left button inside the window and moving the pointer drags
    the window along: after the moves the window is displaced by exactly
    the displacement of the pointer since the press, and its size is
    unchanged. *)
Theorem drag_follows_pointer (self : Chrome) (press last_move : QMouseEvent)
    (moves : list QMouseEvent) :
  ev_button press = LeftButton → interior self (ev_pos press) →
  let self' := handle_all self (Press press :: (Move <$> moves ++ [last_move])) in
  win_x self' = win_x self + (qx (ev_globalPos last_move) - qx (ev_globalPos press)) ∧
  win_y self' = win_y self + (qy (ev_globalPos last_move) - qy (ev_globalPos press)) ∧
  win_width self' = win_width self ∧ win_height self' = win_height self.
Proof.
  intros Hb Hin. cbn zeta. unfold handle_all. cbn [foldl handle].
  fold (handle_all (mousePressEvent self press) (Move <$> moves ++ [last_move])).
  apply (get_resize_edge_None_iff self (ev_pos press)) in Hin.
  assert (mousePressEvent self press =
          set_gesture true
            (qsub (ev_globalPos press) {| qx := win_x self; qy := win_y self |})
            (resizing self) None self) as ->
    by (unfold mousePressEvent; rewrite Hb, Hin; reflexivity).
  match goal with |- context [handle_all ?s _] => set (s1 := s) end.
  destruct (drag_moves s1 (moves ++ [last_move]) eq_refl) as (_ & _ & Hw & Hh & Hlast).
  specialize (Hlast last_move (last_snoc _ _)). destruct Hlast as [Hx Hy].
  rewrite Hx, Hy, Hw, Hh. unfold s1; cbn. repeat split; lia.
Qed.

(** A drag from the middle of the fresh window, 30 pixels right and 5 up. *)
Lemma drag_follows_pointer_witness :
  let self := chrome_init 0 0 16777215 16777215 in
  let press := {| ev_button := LeftButton; ev_pos := {| qx := 200; qy := 70 |};
                  ev_globalPos := {| qx := 300; qy := 170 |} |} in
  let last_move := {| ev_button := LeftButton; ev_pos := {| qx := 200; qy := 70 |};
                      ev_globalPos := {| qx := 330; qy := 165 |} |} in
  let self' := handle_all self (Press press :: (Move <$> [] ++ [last_move])) in
  win_x self' = win_x self + (330 - 300) ∧ win_y self' = win_y self + (165 - 170) ∧
  win_width self' = win_width self ∧ win_height self' = win_height self.
Proof.
  refine (drag_follows_pointer (chrome_init 0 0 16777215 16777215)
            {| ev_button := LeftButton; ev_pos := {| qx := 200; qy := 70 |};
               ev_globalPos := {| qx := 300; qy := 170 |} |}
            {| ev_button := LeftButton; ev_pos := {| qx := 200; qy := 70 |};
               ev_globalPos := {| qx := 330; qy := 165 |} |} [] _ _).
  - reflexivity.
  - vm_compute. repeat split; reflexivity.
Defined.

(** ** Resizing *)

Lemma bound_size_id (lo hi v : Z) : lo ≤ v ≤ hi → bound_size lo hi v = v.
Proof. unfold bound_size. lia. Qed.

(** A resize moves only the grabbed edge: with the size within Qt's limits
    and the new size not above the maximum, the three other edges of the
    window stay where they are. *)
Theorem resize_moves_only_the_grabbed_edge (self : Chrome) (event : QMouseEvent) :
  within_limits self →
  let self' := resize_window self event in
  let g := ev_globalPos event in
  (resize_edge self = Some EdgeLeft →
     win_width self - (qx g - win_x self) ≤ maximumWidth self →
     win_x self' + win_width self' = win_x self + win_width self ∧
     win_y self' = win_y self ∧ win_height self' = win_height self) ∧
  (resize_edge self = Some EdgeRight →
     win_x self' = win_x self ∧
     win_y self' = win_y self ∧ win_height self' = win_height self) ∧
  (resize_edge self = Some EdgeTop →
     win_height self - (qy g - win_y self) ≤ maximumHeight self →
     win_y self' + win_height self' = win_y self + win_height self ∧
     win_x self' = win_x self ∧ win_width self' = win_width self) ∧
  (resize_edge self = Some EdgeBottom →
     win_y self' = win_y self ∧
     win_x self' = win_x self ∧ win_width self' = win_width self).
Proof.
  intros [Hw Hh]. cbn zeta. unfold resize_window.
  split; [|split; [|split]]; intros ->; intros;
    match goal with
    | |- context [if ?c <? ?v then _ else _] => destruct (Z.ltb_spec c v)
    end; unfold resize, setGeometry; cbn;
    rewrite ?bound_size_id by lia; lia.
Qed.

(** The grabbed edge follows the pointer as long as the window stays larger
    than its minimum size (and within its maximum); a move that would make
    it no larger than the minimum changes nothing. *)
Theorem resize_follows_pointer_above_minimum (self : Chrome) (event : QMouseEvent) :
  let self' := resize_window self event in
  let g := ev_globalPos event in
  (resize_edge self = Some EdgeLeft →
     (minimumWidth self < win_width self - (qx g - win_x self) ≤ maximumWidth self →
        win_x self' = qx g ∧ win_width self' = win_width self - (qx g - win_x self)) ∧
     (win_width self - (qx g - win_x self) ≤ minimumWidth self → self' = self)) ∧
  (resize_edge self = Some EdgeRight →
     (minimumWidth self < qx g - win_x self ≤ maximumWidth self →
        win_x self' + win_width self' = qx g) ∧
     (qx g - win_x self ≤ minimumWidth self → self' = self)) ∧
  (resize_edge self = Some EdgeTop →
     (minimumHeight self < win_height self - (qy g - win_y self) ≤ maximumHeight self →
        win_y self' = qy g ∧ win_height self' = win_height self - (qy g - win_y self)) ∧
     (win_height self - (qy g - win_y self) ≤ minimumHeight self → self' = self)) ∧
  (resize_edge self = Some EdgeBottom →
     (minimumHeight self < qy g - win_y self ≤ maximumHeight self →
        win_y self' + win_height self' = qy g) ∧
     (qy g - win_y self ≤ minimumHeight self → self' = self)).
Proof.
  cbn zeta. unfold resize_window.
  split; [|split; [|split]]; intros ->; split; intros;
    match goal with
    | |- context [if ?c <? ?v then _ else _] => destruct (Z.ltb_spec c v)
    end; try reflexivity; try lia; unfold resize, setGeometry; cbn;
    rewrite ?bound_size_id by lia; lia.
Qed.

(** A press on the left border of the fresh window (edge ["left"]), then the
    pointer 10 pixels further left. *)
Lemma resize_moves_only_the_grabbed_edge_witness :
  let self := mousePressEvent (chrome_init 0 0 16777215 16777215)
                {| ev_button := LeftButton; ev_pos := {| qx := 5; qy := 70 |};
                   ev_globalPos := {| qx := 105; qy := 170 |} |} in
  let self' := resize_window self
                 {| ev_button := LeftButton; ev_pos := {| qx := -10; qy := 70 |};
                    ev_globalPos := {| qx := 90; qy := 170 |} |} in
  win_x self' + win_width self' = 100 + 450 ∧ win_y self' = 100 ∧ win_height self' = 150.
Proof.
  refine (proj1 (resize_moves_only_the_grabbed_edge
            (mousePressEvent (chrome_init 0 0 16777215 16777215)
               {| ev_button := LeftButton; ev_pos := {| qx := 5; qy := 70 |};
                  ev_globalPos := {| qx := 105; qy := 170 |} |})
            {| ev_button := LeftButton; ev_pos := {| qx := -10; qy := 70 |};
               ev_globalPos := {| qx := 90; qy := 170 |} |} _) _ _).
  - vm_compute. repeat split; discriminate.
  - reflexivity.
  - vm_compute; discriminate.
Defined.

(** The same gesture: the left border lands on the pointer, at x = 90, and
    the window is 460 wide. *)
Lemma resize_follows_pointer_witness :
  let self := mousePressEvent (chrome_init 0 0 16777215 16777215)
                {| ev_button := LeftButton; ev_pos := {| qx := 5; qy := 70 |};
                   ev_globalPos := {| qx := 105; qy := 170 |} |} in
  let self' := resize_window self
                 {| ev_button := LeftButton; ev_pos := {| qx := -10; qy := 70 |};
                    ev_globalPos := {| qx := 90; qy := 170 |} |} in
  win_x self' = 90 ∧ win_width self' = 450 - (90 - 100).
Proof.
  refine (proj1 (proj1 (resize_follows_pointer_above_minimum
            (mousePressEvent (chrome_init 0 0 16777215 16777215)
               {| ev_button := LeftButton; ev_pos := {| qx := 5; qy := 70 |};
                  ev_globalPos := {| qx := 105; qy := 170 |} |})
            {| ev_button := LeftButton; ev_pos := {| qx := -10; qy := 70 |};
               ev_globalPos := {| qx := 90; qy := 170 |} |}) _) _).
  - reflexivity.
  - vm_compute. split; [reflexivity | discriminate].
Defined.

(** ** What the mouse can never do *)

(** The size limits, the margin and a size strictly above the minimum. *)
Lemma handle_keeps_size_above_minimum (self : Chrome) (a : MouseAction) :
  within_limits self →
  minimumWidth self < win_width self → minimumHeight self < win_height self →
  within_limits (handle self a) ∧
  minimumWidth (handle self a) < win_width (handle self a) ∧
  minimumHeight (handle self a) < win_height (handle self a) ∧
  minimumWidth (handle self a) = minimumWidth self ∧
  minimumHeight (handle self a) = minimumHeight self ∧
  maximumWidth (handle self a) = maximumWidth self ∧
  maximumHeight (handle self a) = maximumHeight self.
Proof.
  unfold within_limits. intros [Hw Hh] Hmw Hmh.
  destruct a as [e|e|e]; cbn [handle].
  - unfold mousePressEvent. destruct (ev_button e); try (cbn; lia).
    destruct (get_resize_edge self (ev_pos e)); cbn; lia.
  - unfold mouseMoveEvent. destruct (dragging self); [cbn; lia|].
    destruct (resizing self).
    + unfold resize_window.
      destruct (resize_edge self) as [[| | |]|]; try (cbn; lia);
        match goal with
        | |- context [if ?c <? ?v then _ else _] => destruct (Z.ltb_spec c v)
        end; try (cbn; lia); unfold resize, setGeometry, bound_size; cbn; lia.
    + destruct (get_resize_edge self (ev_pos e)) as [[| | |]|]; cbn; lia.
  - unfold mouseReleaseEvent. destruct (ev_button e); cbn; lia.
Qed.

(** Whatever the user does with the mouse, the window never gets as small
    as its minimum size: a window strictly larger than its minimum width and
    height stays so (the guards of [resize_window] are strict), and stays
    within Qt's limits. *)
Theorem mouse_never_reaches_minimum_size (self : Chrome) (actions : list MouseAction) :
  within_limits self →
  minimumWidth self < win_width self → minimumHeight self < win_height self →
  let self' := handle_all self actions in
  within_limits self' ∧
  minimumWidth self < win_width self' ∧ minimumHeight self < win_height self'.
Proof.
  cbn zeta. revert self. induction actions as [|a actions IH]; intros self Hl Hw Hh.
  - cbn. auto.
  - unfold handle_all. cbn [foldl]. fold (handle_all (handle self a) actions).
    destruct (handle_keeps_size_above_minimum self a Hl Hw Hh)
      as (Hl' & Hw' & Hh' & Emw & Emh & _ & _).
    rewrite <- Emw, <- Emh. apply IH; assumption.
Qed.

(** Grabbing the left border of the fresh window (minimum size 200 x 100)
    and pushing it far to the right. *)
Lemma mouse_never_reaches_minimum_size_witness :
  let self := chrome_init 200 100 16777215 16777215 in
  let self' := handle_all self
    [Press {| ev_button := LeftButton; ev_pos := {| qx := 5; qy := 70 |};
              ev_globalPos := {| qx := 105; qy := 170 |} |};
     Move {| ev_button := LeftButton; ev_pos := {| qx := 240; qy := 70 |};
             ev_globalPos := {| qx := 340; qy := 170 |} |};
     Move {| ev_button := LeftButton; ev_pos := {| qx := 300; qy := 70 |};
             ev_globalPos := {| qx := 640; qy := 170 |} |}] in
  within_limits self' ∧
  minimumWidth self < win_width self' ∧ minimumHeight self < win_height self'.
Proof.
  refine (mouse_never_reaches_minimum_size (chrome_init 200 100 16777215 16777215)
    [Press {| ev_button := LeftButton; ev_pos := {| qx := 5; qy := 70 |};
              ev_globalPos := {| qx := 105; qy := 170 |} |};
     Move {| ev_button := LeftButton; ev_pos := {| qx := 240; qy := 70 |};
             ev_globalPos := {| qx := 340; qy := 170 |} |};
     Move {| ev_button := LeftButton; ev_pos := {| qx := 300; qy := 70 |};
             ev_globalPos := {| qx := 640; qy := 170 |} |}] _ _ _).
  - vm_compute. repeat split; discriminate.
  - reflexivity.
  - reflexivity.
Defined.

Lemma hover_moves (self : Chrome) (events : list QMouseEvent) :
  dragging self = false → resizing self = false →
  let self' := handle_all self (Move <$> events) in
  dragging self' = false ∧ resizing self' = false ∧
  win_x self' = win_x self ∧ win_y self' = win_y self ∧
  win_width self' = win_width self ∧ win_height self' = win_height self.
Proof.
  cbn zeta. revert self. induction events as [|e events IH]; intros self Hd Hr.
  - cbn. auto 10.
  - unfold handle_all. cbn [fmap list_fmap foldl handle].
    fold (handle_all (mouseMoveEvent self e) (Move <$> events)).
    assert (dragging (mouseMoveEvent self e) = false ∧
            resizing (mouseMoveEvent self e) = false ∧
            win_x (mouseMoveEvent self e) = win_x self ∧
            win_y (mouseMoveEvent self e) = win_y self ∧
            win_width (mouseMoveEvent self e) = win_width self ∧
            win_height (mouseMoveEvent self e) = win_height self)
      as (Hd' & Hr' & <- & <- & <- & <-).
    { unfold mouseMoveEvent. rewrite Hd, Hr.
      destruct (get_resize_edge self (ev_pos e)) as [[| | |]|]; cbn; auto 10. }
    apply IH; assumption.
Qed.

(** Once the left button is released, moving the pointer over the window
    (over its borders too) neither moves nor resizes it, however a gesture
    was left before. *)
Theorem released_pointer_changes_no_geometry (self : Chrome) (release : QMouseEvent)
    (events : list QMouseEvent) :
  ev_button release = LeftButton →
  let self' := handle_all self (Release release :: (Move <$> events)) in
  win_x self' = win_x self ∧ win_y self' = win_y self ∧
  win_width self' = win_width self ∧ win_height self' = win_height self ∧
  dragging self' = false ∧ resizing self' = false.
Proof.
  intros Hb. cbn zeta. unfold handle_all. cbn [foldl handle].
  fold (handle_all (mouseReleaseEvent self release) (Move <$> events)).
  unfold mouseReleaseEvent. rewrite Hb.
  match goal with |- context [handle_all ?s _] => set (s1 := s) end.
  destruct (hover_moves s1 events eq_refl eq_refl) as (Hd & Hr & Hx & Hy & Hw & Hh).
  rewrite Hx, Hy, Hw, Hh, Hd, Hr. unfold s1; cbn. auto 10.
Qed.

(** A drag left unfinished, then the release and two moves over the left
    border. *)
Lemma released_pointer_witness :
  let self := mousePressEvent (chrome_init 0 0 16777215 16777215)
                {| ev_button := LeftButton; ev_pos := {| qx := 200; qy := 70 |};
                   ev_globalPos := {| qx := 300; qy := 170 |} |} in
  let release := {| ev_button := LeftButton; ev_pos := {| qx := 200; qy := 70 |};
                    ev_globalPos := {| qx := 300; qy := 170 |} |} in
  let events := [{| ev_button := LeftButton; ev_pos := {| qx := 5; qy := 70 |};
                    ev_globalPos := {| qx := 105; qy := 170 |} |};
                 {| ev_button := LeftButton; ev_pos := {| qx := -20; qy := 70 |};
                    ev_globalPos := {| qx := 80; qy := 170 |} |}] in
  let self' := handle_all self (Release release :: (Move <$> events)) in
  win_x self' = win_x self ∧ win_y self' = win_y self ∧
  win_width self' = win_width self ∧ win_height self' = win_height self ∧
  dragging self' = false ∧ resizing self' = false.
Proof.
  refine (released_pointer_changes_no_geometry
    (mousePressEvent (chrome_init 0 0 16777215 16777215)
       {| ev_button := LeftButton; ev_pos := {| qx := 200; qy := 70 |};
          ev_globalPos := {| qx := 300; qy := 170 |} |})
    {| ev_button := LeftButton; ev_pos := {| qx := 200; qy := 70 |};
       ev_globalPos := {| qx := 300; qy := 170 |} |}
    [{| ev_button := LeftButton; ev_pos := {| qx := 5; qy := 70 |};
        ev_globalPos := {| qx := 105; qy := 170 |} |};
     {| ev_button := LeftButton; ev_pos := {| qx := -20; qy := 70 |};
        ev_globalPos := {| qx := 80; qy := 170 |} |}] _).
  reflexivity.
Defined.

(** ** A whole resize gesture *)

(** Pressing the left button within the margin of the right border (and
    outside the margin of the left one) and then moving the pointer: the
    right border lands on the pointer's global x, as long as that leaves
    the width above the minimum and within the maximum; the left border, the
    top and the height stay. *)
Theorem grabbing_right_border_resizes (self : Chrome) (press move : QMouseEvent) :
  dragging self = false → within_limits self →
  ev_button press = LeftButton →
  resize_margin self < qx (ev_pos press) →
  win_width self - resize_margin self ≤ qx (ev_pos press) →
  minimumWidth self < qx (ev_globalPos move) - win_x self ≤ maximumWidth self →
  let self' := handle_all self [Press press; Move move] in
  win_x self' + win_width self' = qx (ev_globalPos move) ∧
  win_x self' = win_x self ∧ win_y self' = win_y self ∧
  win_height self' = win_height self.
Proof.
  intros Hd [Hw Hh] Hb Hx1 Hx2 Hnew. cbn zeta. unfold handle_all. cbn [foldl handle].
  assert (get_resize_edge self (ev_pos press) = Some EdgeRight) as Hedge
    by (apply (get_resize_edge_right self (ev_pos press)); lia).
  unfold mousePressEvent. rewrite Hb, Hedge.
  unfold mouseMoveEvent. cbn [dragging resizing set_gesture]. rewrite Hd.
  unfold resize_window. cbn [resize_edge set_gesture minimumWidth win_x win_width
    win_height win_y ev_globalPos].
  destruct (Z.ltb_spec (minimumWidth self) (qx (ev_globalPos move) - win_x self)); [|lia].
  unfold resize, setGeometry. cbn. rewrite !bound_size_id by lia. lia.
Qed.

(** The fresh window, grabbed at its right border and widened to put the
    border at global x = 600. *)
Lemma grabbing_right_border_witness :
  let self := chrome_init 0 0 16777215 16777215 in
  let self' := handle_all self
    [Press {| ev_button := LeftButton; ev_pos := {| qx := 445; qy := 70 |};
              ev_globalPos := {| qx := 545; qy := 170 |} |};
     Move {| ev_button := LeftButton; ev_pos := {| qx := 500; qy := 70 |};
             ev_globalPos := {| qx := 600; qy := 170 |} |}] in
  win_x self' + win_width self' = 600 ∧
  win_x self' = win_x self ∧ win_y self' = win_y self ∧
  win_height self' = win_height self.
Proof.
  refine (grabbing_right_border_resizes (chrome_init 0 0 16777215 16777215)
    {| ev_button := LeftButton; ev_pos := {| qx := 445; qy := 70 |};
       ev_globalPos := {| qx := 545; qy := 170 |} |}
    {| ev_button := LeftButton; ev_pos := {| qx := 500; qy := 70 |};
       ev_globalPos := {| qx := 600; qy := 170 |} |} _ _ _ _ _ _).
  - reflexivity.
  - vm_compute. repeat split; discriminate.
  - reflexivity.
  - reflexivity.
  - vm_compute; discriminate.
  - vm_compute. split; [reflexivity | discriminate].
Defined.
